(** * convert.py: Cadence layout dump to SVG

    A shallow embedding of [convert.py] and the properties of its geometry
    resolution: the single-level transform [rot_mirror_and_offset], the
    recursive [print_me] of [Container] and [Polygon], the construction of
    polygons, the layer-ordered dump and the ingestion loop. The script is
    read as Python 3 (every [print] is a function call).

    Python values are modelled as the interpreter has them:
    - a number is an [int] (unbounded, [Z]) or a [float] (binary64, Rocq's
      primitive floats); [int / int] is true division and yields a float;
    - objects live in a heap indexed by address, so that one [Polygon] or
      [Container] placed several times is one shared object;
    - the module-level variables ([undefined_layers], [to_write],
      [object_id], [cells], [currentCell]) are fields of an explicit state;
    - an uncaught exception ends the run: fallible code returns [result].
    What the script prints on standard output (the warnings, the final
    count) is left out. *)

From Stdlib Require Import ZArith Floats Lia List Permutation Sorted.
From stdpp Require Import gmap strings pretty list.

Local Open Scope Z_scope.

(** ** Python numbers *)

Module PyNum.

Inductive pynum : Type :=
| PInt (z : Z)
| PFloat (f : float).

(** The float an int operand is converted to: the nearest binary64 value.
    (Python raises [OverflowError] for an int beyond the float range; the
    ints of this program are the literals 0, 90, 180 and 270 and sums and
    negations of 0.) *)
Definition float_of_int (z : Z) : float :=
  SF2Prim (binary_normalize prec emax z 0 false).

(** Unary minus: [-x]. *)
Definition py_neg (a : pynum) : pynum :=
  match a with
  | PInt z => PInt (- z)
  | PFloat f => PFloat (- f)%float
  end.

(** Binary plus: [x + y]; an int operand is converted when the other is a
    float. *)
Definition py_add (a b : pynum) : pynum :=
  match a, b with
  | PInt x, PInt y => PInt (x + y)
  | PInt x, PFloat g => PFloat (float_of_int x + g)%float
  | PFloat f, PInt y => PFloat (f + float_of_int y)%float
  | PFloat f, PFloat g => PFloat (f + g)%float
  end.

(** [a == k] for an int literal [k] (90, 180 and 270 in the source). *)
Definition py_eq_int (a : pynum) (k : Z) : bool :=
  match a with
  | PInt z => z =? k
  | PFloat f => PrimFloat.eqb f (float_of_int k)
  end.

(** C's [fmod(f, 360.0)]: the exact remainder, with the sign of [f]. *)
Definition fmod360 (f : float) : float :=
  match Prim2SF f with
  | S754_zero _ => f
  | S754_finite s m e =>
      let '(r, e') :=
        if 0 <=? e then (Z.rem (Zpos m * 2 ^ e) 360, 0)
        else (Z.rem (Zpos m) (360 * 2 ^ (- e)), e) in
      SF2Prim (binary_normalize prec emax (if s then - r else r) e' s)
  | _ => nan
  end.

(** [f % 360.0] on floats (CPython's [float_rem]): [fmod], then the result is
    moved to the sign of the divisor. *)
Definition float_mod360 (f : float) : float :=
  let m := fmod360 f in
  if PrimFloat.eqb m 0 then 0%float
  else if PrimFloat.ltb m 0 then (m + 360)%float
  else m.

(** [a % 360]. *)
Definition py_mod360 (a : pynum) : pynum :=
  match a with
  | PInt z => PInt (z mod 360)
  | PFloat f => PFloat (float_mod360 f)
  end.

(** [a / b] on ints (true division): the correctly rounded quotient, or
    [None] where Python raises (division by zero, or a quotient too large
    for a float). *)
Definition spec_of_int (z : Z) : spec_float :=
  match z with
  | Z0 => S754_zero false
  | Zpos p => S754_finite false p 0
  | Zneg p => S754_finite true p 0
  end.

Definition int_truediv (a b : Z) : option float :=
  if b =? 0 then None
  else match SFdiv prec emax (spec_of_int a) (spec_of_int b) with
       | S754_infinity _ | S754_nan => None
       | q => Some (SF2Prim q)
       end.

(** The exact rational value of a finite float, as numerator and (power of
    two) denominator. *)
Definition float_exact (f : float) : option (Z * Z) :=
  match Prim2SF f with
  | S754_zero _ => Some (0, 1)
  | S754_finite s m e =>
      let n := if s then Zneg m else Zpos m in
      Some (if 0 <=? e then (n * 2 ^ e, 1) else (n, 2 ^ (- e)))
  | _ => None
  end.

End PyNum.
Export PyNum.

(** ** The single-level transform *)

(** [rot_mirror_and_offset(obj_x, obj_y, angle, mirror, off_x, off_y)].
    [mirror] is used for its truth value only ([if mirror:]); the ints 0 and
    1 the program passes there are the booleans they test as. *)
Definition rot_mirror_and_offset
    (obj_x obj_y angle : pynum) (mirror : bool) (off_x off_y : pynum)
    : pynum * pynum :=
  let '(my_x, my_y) :=
    if py_eq_int angle 90 then (py_neg obj_y, obj_x)
    else if py_eq_int angle 180 then (py_neg obj_x, py_neg obj_y)
    else if py_eq_int angle 270 then (obj_y, py_neg obj_x)
    else (obj_x, obj_y) in
  let my_y := if mirror then py_neg my_y else my_y in
  let my_x := py_add my_x off_x in
  let my_y := py_add my_y off_y in
  (my_x, my_y).

(** ** Exceptions *)

Inductive exn : Type :=
| KeyError (key : string)
| AttributeError
| OverflowError
| RecursionError.

Inductive result (A : Type) : Type :=
| Ok (a : A)
| Raise (e : exn).
Arguments Ok {A} a.
Arguments Raise {A} e.

(** Sequencing: the first exception ends the computation. *)
#[global] Instance result_bind : MBind result := λ A B k m,
  match m with
  | Ok a => k a
  | Raise e => Raise e
  end.

(** ** Objects, heap and module state *)

Definition addr := nat.

(** What [Polygon.print_me] appends to [to_write] next to the layer. The
    source appends the finished [<path .../>] text; that text is a function
    of the three values kept here ([element_text] below), so the record is
    stored and the text produced when the file is written. *)
Record path_element : Type := PathElement {
  el_points : list (pynum * pynum);
  el_id : string;
  el_color : string * string * string;
}.

(** A child tuple [(obj, x, y, angle, mirror)] of a [Container]. The mirror
    component is a bool, or the int 0 for polygons; only its truth value is
    ever used ([c[4] ^ mirror], then [if mirror:]). *)
Definition child : Type := addr * pynum * pynum * pynum * bool.

Inductive object : Type :=
| Container (children : list child)
| Polygon (points : list (pynum * pynum)) (layer : Z) (id : string).

Record state : Type := State {
  heap : list object;
  undefined_layers : gset Z;
  to_write : list (Z * path_element);
  object_id : nat;
  cells : gmap string addr;
  currentCell : option addr;
}.

(** The module-level table, as the source fills it. *)
Definition layer_colors : gmap Z (string * string * string) :=
  foldl (λ m kv, <[kv.1 := kv.2]> m) ∅
    [ (3,   ("9900e6", "0.1", "9900e6"));
      (6,   ("e71f0d", "0.5", "e71f0d"));
      (17,  ("01fe00", "0.3", "01fe00"));
      (18,  ("01fe00", "0.0", "01fe00"));
      (25,  ("01fe00", "0.0", "01fe00"));
      (26,  ("01fe00", "0.0", "01fe00"));
      (30,  ("ffffff", "1.0", "ffffff"));
      (31,  ("0000ff", "0.3", "0000ff"));
      (32,  ("ff0000", "0.3", "ff0000"));
      (33,  ("01cc66", "0.3", "01cc66"));
      (34,  ("ffbff2", "0.3", "ffbff2"));
      (35,  ("01fe00", "0.0", "01fe00"));
      (36,  ("01fe00", "0.0", "01fe00"));
      (37,  ("01fe00", "0.0", "01fe00"));
      (38,  ("01fe00", "0.0", "01fe00"));
      (57,  ("01fe00", "0.0", "01fe00"));
      (75,  ("01fe00", "0.0", "01fe00"));
      (77,  ("01fe00", "0.0", "01fe00"));
      (88,  ("01fe00", "0.0", "01fe00"));
      (131, ("01fe00", "0.0", "01fe00"));
      (132, ("01fe00", "0.0", "01fe00"));
      (133, ("01fe00", "0.0", "01fe00"));
      (148, ("01fe00", "0.0", "01fe00"));
      (149, ("01fe00", "0.0", "01fe00"));
      (150, ("bf4026", "0.0", "bf4026")) ].

Definition initial_state : state :=
  {| heap := []; undefined_layers := ∅; to_write := []; object_id := 0%nat;
     cells := ∅; currentCell := None |}.

(** ** Polygon *)

(** The loop of [Polygon.__init__]: [(p[0] / 10, p[1] / 10)] per point. *)
Fixpoint scale_points (points : list (Z * Z)) : result (list (pynum * pynum)) :=
  match points with
  | [] => Ok []
  | p :: rest =>
      match int_truediv (fst p) 10, int_truediv (snd p) 10 with
      | Some px, Some py =>
          scaled ← scale_points rest;
          Ok ((PFloat px, PFloat py) :: scaled)
      | _, _ => Raise OverflowError
      end
  end.

(** [Polygon(points, layer)]: the new object's address and the state with
    the object allocated and [object_id] advanced. *)
Definition Polygon_init (points : list (Z * Z)) (layer : Z) (s : state)
    : result (addr * state) :=
  scaled ← scale_points points;
  let self := Polygon scaled layer ("path" +:+ pretty (object_id s)) in
  Ok (length (heap s),
      {| heap := heap s ++ [self];
         undefined_layers := undefined_layers s;
         to_write := to_write s;
         object_id := S (object_id s);
         cells := cells s;
         currentCell := currentCell s |}).

(** The colours [Polygon.print_me] picks, and [undefined_layers] after it. *)
Definition fallback_color : string * string * string :=
  ("000000", "0.8", "000000").

Definition resolve_color (layer : Z) (undef : gset Z)
    : (string * string * string) * gset Z :=
  match layer_colors !! layer with
  | Some color_info => (color_info, undef)
  | None => (fallback_color, {[ layer ]} ∪ undef)
  end.

(** One turn of the point loop: the transformed point, y negated
    ("because inkscape uses graphics coordinates"). *)
Definition emit_point (x y angle : pynum) (mirror : bool) (p : pynum * pynum)
    : pynum * pynum :=
  let '(my_x, my_y) := rot_mirror_and_offset (fst p) (snd p) angle mirror x y in
  (my_x, py_neg my_y).

(** [Polygon.print_me(self, x, y, angle, mirror)]. *)
Definition Polygon_print_me (points : list (pynum * pynum)) (layer : Z)
    (id : string) (x y angle : pynum) (mirror : bool) (s : state) : state :=
  let '(color_info, undef) := resolve_color layer (undefined_layers s) in
  let path := map (emit_point x y angle mirror) points in
  {| heap := heap s;
     undefined_layers := undef;
     to_write := to_write s ++ [(layer, PathElement path id color_info)];
     object_id := object_id s;
     cells := cells s;
     currentCell := currentCell s |}.

(** ** Container *)

(** [Container.add(self, obj, x, y, angle, mirror)] on the object at [self]. *)
Definition Container_add (self : option addr) (c : child) (s : state)
    : result state :=
  match self with
  | None => Raise AttributeError
  | Some a =>
      match heap s !! a with
      | Some (Container children) =>
          Ok {| heap := <[a := Container (children ++ [c])]> (heap s);
                undefined_layers := undefined_layers s;
                to_write := to_write s;
                object_id := object_id s;
                cells := cells s;
                currentCell := currentCell s |}
      | _ => Raise AttributeError
      end
  end.

(** The [for c in self.children] loop of [Container.print_me], given the
    method the children are sent. *)
Fixpoint Container_loop
    (print_child : addr → pynum → pynum → pynum → bool → state → result state)
    (children : list child) (x y angle : pynum) (mirror : bool) (s : state)
    : result state :=
  match children with
  | [] => Ok s
  | (c0, c1, c2, c3, c4) :: rest =>
      let '(c_x, c_y) := rot_mirror_and_offset c1 c2 angle mirror x y in
      s' ← print_child c0 c_x c_y (py_mod360 (py_add c3 angle))
             (xorb c4 mirror) s;
      Container_loop print_child rest x y angle mirror s'
  end.

(** [obj.print_me(x, y, angle, mirror)] for the object at [a], dispatched on
    its class. [depth] is the number of nested [print_me] calls still
    allowed; a placement cycle exhausts it. The interpreter's recursion
    limit counts every frame, the module's and that of
    [rot_mirror_and_offset] too: [depth] is what that limit leaves for the
    nesting of [print_me], and the properties speak of a given depth, of
    every depth or of every large enough depth, never of the value of the
    interpreter's limit. *)
Fixpoint print_me (depth : nat) (a : addr) (x y angle : pynum) (mirror : bool)
    (s : state) : result state :=
  match depth with
  | O => Raise RecursionError
  | S depth' =>
      match heap s !! a with
      | Some (Polygon points layer id) =>
          Ok (Polygon_print_me points layer id x y angle mirror s)
      | Some (Container children) =>
          Container_loop (print_me depth') children x y angle mirror s
      | None => Raise AttributeError
      end
  end.

(** ** Layer order *)

(** [sorted(l, key=operator.itemgetter(0))]: Python's sort is stable, an
    element goes before the first one whose key is not smaller. *)
Fixpoint insert_by_layer {A : Type} (x : Z * A) (l : list (Z * A)) : list (Z * A) :=
  match l with
  | [] => [x]
  | y :: l' => if fst y <? fst x then y :: insert_by_layer x l' else x :: y :: l'
  end.

Fixpoint sorted_by_layer {A : Type} (l : list (Z * A)) : list (Z * A) :=
  match l with
  | [] => []
  | x :: l' => insert_by_layer x (sorted_by_layer l')
  end.

(** ** Text of the SVG file *)

Definition dq : string := String (Ascii.ascii_of_nat 34) EmptyString.
Definition nl : string := String (Ascii.ascii_of_nat 10) EmptyString.

Section Text.

(** [str(f)] of a float is the interpreter's shortest round-trip decimal; it
    is taken as given. *)
Variable repr_float : float → string.

Definition str (n : pynum) : string :=
  match n with
  | PInt z => pretty z
  | PFloat f => repr_float f
  end.

(** The [path] string of [Polygon.print_me], over the points as emitted:
    ["M"], the points separated by [" L"], then [" z"]. *)
Fixpoint path_loop (pts : list (pynum * pynum)) (first : bool) (path : string)
    : string :=
  match pts with
  | [] => path
  | (my_x, my_y) :: rest =>
      let path := if first then path else path +:+ " L" in
      path_loop rest false (path +:+ " " +:+ str my_x +:+ "," +:+ str my_y)
  end.

Definition path_text (pts : list (pynum * pynum)) : string :=
  path_loop pts true "M" +:+ " z".

Definition style_text (color_info : string * string * string) : string :=
  "fill:#" +:+ color_info.1.1 +:+ ";fill-opacity:" +:+ color_info.1.2
  +:+ ";stroke:#" +:+ color_info.2
  +:+ ";stroke-width:2;stroke-linecap:round;stroke-linejoin:round;stroke-miterlimit:4;stroke-dasharray:none;stroke-dashoffset:0;stroke-opacity:1".

Definition element_text (e : path_element) : string :=
  "    <path" +:+ nl +:+ "       d=" +:+ dq +:+ path_text (el_points e) +:+ dq
  +:+ nl +:+ "       id=" +:+ dq +:+ el_id e +:+ dq
  +:+ nl +:+ "       style=" +:+ dq +:+ style_text (el_color e) +:+ dq
  +:+ " />" +:+ nl.

(** [make_svg_header(output_file, width, height)]: the strings written. *)
Definition make_svg_header (width height : Z) : list string :=
  [ "<?xml version=" +:+ dq +:+ "1.0" +:+ dq +:+ " encoding=" +:+ dq +:+ "UTF-8"
      +:+ dq +:+ " standalone=" +:+ dq +:+ "no" +:+ dq +:+ "?>" +:+ nl;
    "<!-- Created with Inkscape (http://www.inkscape.org/) -->" +:+ nl;
    "<svg" +:+ nl;
    "   xmlns:svg=" +:+ dq +:+ "http://www.w3.org/2000/svg" +:+ dq +:+ nl;
    "   xmlns=" +:+ dq +:+ "http://www.w3.org/2000/svg" +:+ dq +:+ nl;
    "   version=" +:+ dq +:+ "1.0" +:+ dq +:+ nl;
    "   width=" +:+ dq +:+ pretty width +:+ dq +:+ nl;
    "   height=" +:+ dq +:+ pretty height +:+ dq +:+ nl;
    "   id=" +:+ dq +:+ "svg2" +:+ dq +:+ ">" +:+ nl;
    "  <defs" +:+ nl;
    "     id=" +:+ dq +:+ "defs4" +:+ dq +:+ " />" +:+ nl ].

Definition make_svg_footer : list string := [ "</svg>" +:+ nl ].

(** [dump_to_write_to_file(output_file)]: [to_write] is replaced by its
    sorted copy, and one string per record is written. *)
Definition dump_to_write_to_file (s : state) : state * list string :=
  let sorted := sorted_by_layer (to_write s) in
  ({| heap := heap s;
      undefined_layers := undefined_layers s;
      to_write := sorted;
      object_id := object_id s;
      cells := cells s;
      currentCell := currentCell s |},
   map (λ x, element_text (snd x) +:+ nl) sorted).

(** ** The ingestion loop *)

(** The lines the loop acts on, with their fields already split and read
    ([int(...)], [float(...)], [bool(int(...))]); a [Cell Instance] line
    comes with the line that follows it, a [Polygon] line with the points
    its point loop has collected. A list of records is therefore an input
    that has been read to its end: every field was there and was a number,
    and every point loop ended normally ([read_points] below is that loop;
    it raises on a missing or malformed field and never ends on a negative
    number of points). *)
Inductive record : Type :=
| CellName (name : string)
| CellInstance (name : string) (x y : Z) (angle : float) (mirror : bool)
| EndCellDefinition
| Rectangle (layer : Z) (x1 y1 x2 y2 : Z)
| PolygonLines (layer : Z) (points : list (Z * Z))
| OtherLine.

Definition set_cell (name : string) (s : state) : state :=
  let currentCell' := length (heap s) in
  {| heap := heap s ++ [Container []];
     undefined_layers := undefined_layers s;
     to_write := to_write s;
     object_id := object_id s;
     cells := <[name := currentCell']> (cells s);
     currentCell := Some currentCell' |}.

Definition add_polygon (points : list (Z * Z)) (layer : Z) (s : state)
    : result state :=
  '(p, s1) ← Polygon_init points layer s;
  Container_add (currentCell s1) (p, PInt 0, PInt 0, PInt 0, false) s1.

(** One turn of the [while line != ''] loop. *)
Definition ingest_record (r : record) (s : state) : result state :=
  match r with
  | CellName name => Ok (set_cell name s)
  | CellInstance name x y angle mirror =>
      match int_truediv x 10, int_truediv y 10 with
      | Some x', Some y' =>
          match cells s !! name with
          | None => Raise (KeyError name)
          | Some c =>
              Container_add (currentCell s)
                (c, PFloat x', PFloat y', PFloat angle, mirror) s
          end
      | _, _ => Raise OverflowError
      end
  | EndCellDefinition => Ok s
  | Rectangle layer x1 y1 x2 y2 =>
      add_polygon [(x1, y1); (x1, y2); (x2, y2); (x2, y1); (x1, y1)] layer s
  | PolygonLines layer points => add_polygon points layer s
  | OtherLine => Ok s
  end.

Fixpoint ingest (rs : list record) (s : state) : result state :=
  match rs with
  | [] => Ok s
  | r :: rest => s' ← ingest_record r s; ingest rest s'
  end.

(** The object whose [print_me] the main code calls: [cells[sys.argv[3]]]
    when a cell name is given, [currentCell] otherwise. [currentCell] is the
    int 0 until a cell is defined, and an int has no [print_me]. *)
Definition select_root (argv3 : option string) (s : state) : result addr :=
  match argv3 with
  | Some name =>
      match cells s !! name with
      | Some a => Ok a
      | None => Raise (KeyError name)
      end
  | None =>
      match currentCell s with
      | Some a => Ok a
      | None => Raise AttributeError
      end
  end.

(** What a run leaves: the strings written to the output file, and the final
    state or the exception that ended the run. *)
Record run : Type := Run {
  output_file : list string;
  outcome : result state;
}.

(** The main code, for the depth allowed to [print_me] (see there), the
    records of the input file and the optional cell name. *)
Definition main (recursion_limit : nat) (records : list record)
    (argv3 : option string) : run :=
  let header := make_svg_header 100 100 in
  match ingest records initial_state with
  | Raise e => Run header (Raise e)
  | Ok s =>
      match select_root argv3 s with
      | Raise e => Run header (Raise e)
      | Ok root =>
          match print_me recursion_limit root (PInt 0) (PInt 0) (PInt 0) false s with
          | Raise e => Run header (Raise e)
          | Ok s' =>
              let '(s'', written) := dump_to_write_to_file s' in
              Run (header ++ written ++ make_svg_footer) (Ok s'')
          end
      end
  end.

End Text.

(** ** Vocabulary of the properties *)

(** *** The transform as the design document words it *)

Inductive right_angle : Type := Deg0 | Deg90 | Deg180 | Deg270.

Definition degrees (r : right_angle) : Z :=
  match r with
  | Deg0 => 0
  | Deg90 => 90
  | Deg180 => 180
  | Deg270 => 270
  end.

(** A Python number that compares equal ([==]) to the right angle [r]. *)
Definition angle_is (angle : pynum) (r : right_angle) : Prop :=
  py_eq_int angle (degrees r) = true.

(** Step 1: 0 -> (x,y); 90 -> (-y,x); 180 -> (-x,-y); 270 -> (y,-x). *)
Definition spec_rotate (r : right_angle) (p : pynum * pynum) : pynum * pynum :=
  match r with
  | Deg0 => (fst p, snd p)
  | Deg90 => (py_neg (snd p), fst p)
  | Deg180 => (py_neg (fst p), py_neg (snd p))
  | Deg270 => (snd p, py_neg (fst p))
  end.

(** Step 2: if mirror, negate the resulting y coordinate. *)
Definition spec_mirror (mirror : bool) (p : pynum * pynum) : pynum * pynum :=
  if mirror then (fst p, py_neg (snd p)) else p.

(** Step 3: add the offset componentwise. *)
Definition spec_offset (off : pynum * pynum) (p : pynum * pynum) : pynum * pynum :=
  (py_add (fst p) (fst off), py_add (snd p) (snd off)).

(** The three steps in their order. *)
Definition spec_compose (p : pynum * pynum) (r : right_angle) (mirror : bool)
    (off : pynum * pynum) : pynum * pynum :=
  spec_offset off (spec_mirror mirror (spec_rotate r p)).

(** The sum of two right angles, modulo 360. *)
Definition add_angle (r1 r2 : right_angle) : right_angle :=
  match r1, r2 with
  | Deg0, r | r, Deg0 => r
  | Deg90, Deg90 => Deg180
  | Deg90, Deg180 | Deg180, Deg90 => Deg270
  | Deg90, Deg270 | Deg270, Deg90 | Deg180, Deg180 => Deg0
  | Deg180, Deg270 | Deg270, Deg180 => Deg90
  | Deg270, Deg270 => Deg180
  end.

(** The y flip of the final emission. *)
Definition flip_y (p : pynum * pynum) : pynum * pynum := (fst p, py_neg (snd p)).

(** A placement as the design document has it: offset, angle, mirror. *)
Record placement : Type := Placement {
  pl_x : pynum;
  pl_y : pynum;
  pl_angle : pynum;
  pl_mirror : bool;
}.

(** [compose(point, angle, mirror, offset)] with the fields of a placement. *)
Definition compose (p : pynum * pynum) (t : placement) : pynum * pynum :=
  rot_mirror_and_offset (fst p) (snd p) (pl_angle t) (pl_mirror t) (pl_x t) (pl_y t).





(** *** Whole numbers, as ints and as floats *)

(** [n] times [xO]: a mantissa moved [n] bits to the left. *)
Definition shl (p : positive) (n : nat) : positive := Nat.iter n xO p.

(** The binary64 form of the integer with sign [s] and magnitude [p], when
    [p] has at most 53 digits: the digits at the top of the mantissa. *)
Definition canon (s : bool) (p : positive) : spec_float :=
  S754_finite s (shl p (Z.to_nat (prec - Zpos (digits2_pos p))))
    (Zpos (digits2_pos p) - prec).

(** [x] holds the whole number [z]: as an int, or as the float of that
    int. The stored coordinates are floats ([int / 10]); the offsets and the
    angle of a polygon's own placement and of the root are the int 0. *)
Definition whole (x : pynum) (z : Z) : Prop :=
  x = PInt z ∨ x = PFloat (float_of_int z).

(** The same, or the float -0.0 that the negation of the float 0.0 is. *)
Definition value (x : pynum) (z : Z) : Prop :=
  whole x z ∨ (z = 0 ∧ x = PFloat neg_zero).




(** *** The records a resolution emits, as a function of the heap alone *)

Fixpoint emitted_children
    (emitted_child : addr → pynum → pynum → pynum → bool → result (list (Z * path_element)))
    (children : list child) (x y angle : pynum) (mirror : bool)
    : result (list (Z * path_element)) :=
  match children with
  | [] => Ok []
  | (c0, c1, c2, c3, c4) :: rest =>
      let '(c_x, c_y) := rot_mirror_and_offset c1 c2 angle mirror x y in
      recs ← emitted_child c0 c_x c_y (py_mod360 (py_add c3 angle)) (xorb c4 mirror);
      recs' ← emitted_children emitted_child rest x y angle mirror;
      Ok (recs ++ recs')
  end.

Fixpoint emitted (depth : nat) (h : list object) (a : addr) (x y angle : pynum)
    (mirror : bool) : result (list (Z * path_element)) :=
  match depth with
  | O => Raise RecursionError
  | S depth' =>
      match h !! a with
      | Some (Polygon points layer id) =>
          Ok [(layer, PathElement (map (emit_point x y angle mirror) points) id
                        (fst (resolve_color layer ∅)))]
      | Some (Container children) =>
          emitted_children (emitted depth' h) children x y angle mirror
      | None => Raise AttributeError
      end
  end.

(** The layers of a list of records that [layer_colors] does not define. *)
Definition unknown_layers {A : Type} (recs : list (Z * A)) : gset Z :=
  list_to_set (filter (λ l, layer_colors !! l = None) (map fst recs)).

(** The state after a resolution that emitted [recs]. *)
Definition after_emitting (recs : list (Z * path_element)) (s : state) : state :=
  {| heap := heap s;
     undefined_layers := unknown_layers recs ∪ undefined_layers s;
     to_write := to_write s ++ recs;
     object_id := object_id s;
     cells := cells s;
     currentCell := currentCell s |}.

(** An object with the transform it is printed at, and the step from a
    container to one of its children that [Container.print_me] takes. *)
Definition visit : Type := addr * (pynum * pynum * pynum * bool).

Inductive descends (h : list object) : visit → visit → Prop :=
| descends_child a children c0 c1 c2 c3 c4 x y angle mirror :
    h !! a = Some (Container children) →
    (c0, c1, c2, c3, c4) ∈ children →
    descends h (a, (x, y, angle, mirror))
      (c0, (fst (rot_mirror_and_offset c1 c2 angle mirror x y),
            snd (rot_mirror_and_offset c1 c2 angle mirror x y),
            py_mod360 (py_add c3 angle), xorb c4 mirror)).

(** The record of a primitive printed at a transform. *)
Definition record_of (points : list (pynum * pynum)) (layer : Z) (id : string)
    (t : pynum * pynum * pynum * bool) : Z * path_element :=
  let '(x, y, angle, mirror) := t in
  (layer,
   PathElement
     (map (λ p, flip_y (rot_mirror_and_offset (fst p) (snd p) angle mirror x y)) points)
     id
     (default fallback_color (layer_colors !! layer))).

(** A path that repeats its first point as its last. *)
Definition closed_by_repeat (pts : list (pynum * pynum)) : list (pynum * pynum) :=
  pts ++ firstn 1 pts.

(** *** Ingestion *)

(** The names the [Cell Name] records of an input define. *)
Definition cell_names (rs : list record) : list string :=
  omap (λ r, match r with CellName name => Some name | _ => None end) rs.

(** A stored coordinate that is the rational [raw / 10] exactly. *)
Definition exactly_tenth (raw : Z) (stored : pynum) : Prop :=
  match stored with
  | PInt z => z * 10 = raw
  | PFloat f => ∃ n d : Z, float_exact f = Some (n, d) ∧ n * 10 = raw * d
  end.

(** The float that true division by 10 stores for a raw coordinate. *)
Definition tenth_of (raw : Z) (stored : pynum) : Prop :=
  ∃ q : float, int_truediv raw 10 = Some q ∧ stored = PFloat q.

(** The placements below the object at [a] nest less than [depth] deep: the
    recursion of [print_me] stays within [depth] calls. *)
Fixpoint within_depth (depth : nat) (h : list object) (a : addr) : bool :=
  match depth with
  | O => false
  | S depth' =>
      match h !! a with
      | Some (Polygon _ _ _) => true
      | Some (Container children) =>
          forallb (λ c : child, within_depth depth' h (fst (fst (fst (fst c))))) children
      | None => false
      end
  end.

(** The main code between the header and the dump: ingestion, the choice of
    the root and its [print_me(0, 0, 0, 0)]. *)
Definition resolve_input (recursion_limit : nat) (records : list record)
    (argv3 : option string) : result state :=
  s ← ingest records initial_state;
  root ← select_root argv3 s;
  print_me recursion_limit root (PInt 0) (PInt 0) (PInt 0) false s.

(** The text of one point in a path: [" " + str(my_x) + "," + str(my_y)]. *)
Definition point_text (repr_float : float → string) (p : pynum * pynum) : string :=
  " " +:+ str repr_float (fst p) +:+ "," +:+ str repr_float (snd p).

(** The text after the first point: [" L"] and the point, for each. *)
Fixpoint more_points (repr_float : float → string) (pts : list (pynum * pynum))
    : string :=
  match pts with
  | [] => EmptyString
  | p :: rest => " L" +:+ point_text repr_float p +:+ more_points repr_float rest
  end.

(** *** Example inputs *)

(** A primitive with the point (1,0) in a cell placed at (10,0), rotated by
    90 degrees, in the root cell. *)
Definition frame_heap : list object :=
  [ Polygon [(PFloat 1, PFloat 0)] 31 "path0";
    Container [(0%nat, PInt 0, PInt 0, PInt 0, false)];
    Container [(1%nat, PFloat 10, PFloat 0, PFloat 90, false)] ].

Definition frame_state : state :=
  {| heap := frame_heap; undefined_layers := ∅; to_write := []; object_id := 1%nat;
     cells := {[ "A" := 1%nat; "B" := 2%nat ]}; currentCell := Some 2%nat |}.

(** A cell with one three-point polygon. *)
Definition triangle_input : list record :=
  [ CellName "A"; PolygonLines 31 [(0, 0); (10, 0); (10, 10)]; EndCellDefinition ].

(** Cell A, holding one rectangle, placed twice in cell B. *)
Definition shared_cell_input : list record :=
  [ CellName "A"; Rectangle 31 0 0 10 20; EndCellDefinition;
    CellName "B"; CellInstance "A" 0 0 0 false; CellInstance "A" 500 0 0 false;
    EndCellDefinition ].

(** The case of the design document: a primitive at (1,0) in cell A, A
    placed at (10,0) with angle 90 in cell B. *)
Definition nested_input : list record :=
  [ CellName "A"; PolygonLines 31 [(10, 0)]; EndCellDefinition;
    CellName "B"; CellInstance "A" 100 0 90 false; EndCellDefinition ].


(** *** States reached by ingestion *)

Definition child_addr (c : child) : addr := fst (fst (fst (fst c))).

Definition is_polygon (h : list object) (a : addr) : Prop :=
  ∃ points layer id, h !! a = Some (Polygon points layer id).

Definition is_container (h : list object) (a : addr) : Prop :=
  ∃ children, h !! a = Some (Container children).

(** The ids of the polygons of a heap, in the order of their creation. *)
Definition polygon_ids (h : list object) : list string :=
  omap (λ o, match o with Polygon _ _ id => Some id | Container _ => None end) h.

(** The name of the cell being defined after a record, given the one before. *)
Definition current_after (cur : option string) (r : record) : option string :=
  match r with
  | CellName name => Some name
  | _ => cur
  end.

(** Some [Cell Instance] record names the very cell it stands in; [cur] is
    the name of the cell being defined where the records start. *)
Fixpoint self_placed (cur : option string) (rs : list record) : bool :=
  match rs with
  | [] => false
  | r :: rest =>
      match r with
      | CellInstance name _ _ _ _ => bool_decide (cur = Some name)
      | _ => false
      end
      || self_placed (current_after cur r) rest
  end.

(** What ingestion keeps true of the state, [cur] being the name of the cell
    being defined: children are polygons or cells created no later than
    their parent; the cell table and [currentCell] refer to containers, the
    current one being the latest; the polygons carry the ids [path0],
    [path1], ... in the order of their creation; nothing is emitted yet. *)
Record ingested (cur : option string) (s : state) : Prop := Ingested {
  ing_children :
    ∀ a children c,
      heap s !! a = Some (Container children) → c ∈ children →
      is_polygon (heap s) (child_addr c)
      ∨ ((child_addr c ≤ a)%nat ∧ is_container (heap s) (child_addr c));
  ing_cells : ∀ name a, cells s !! name = Some a → is_container (heap s) a;
  ing_current :
    match cur with
    | None => currentCell s = None ∧ cells s = ∅
    | Some name =>
        ∃ a, currentCell s = Some a ∧ cells s !! name = Some a ∧
             ∀ name' a', cells s !! name' = Some a' →
                         (a' ≤ a)%nat ∧ (a' = a → name' = name)
    end;
  ing_ids :
    polygon_ids (heap s) = map (λ k : nat, "path" +:+ pretty k) (seq 0 (object_id s));
  ing_output : to_write s = [] ∧ undefined_layers s = ∅;
}.

(** No container is placed, directly, in a container created no later than
    itself. *)
Definition acyclic (h : list object) : Prop :=
  ∀ a children c,
    h !! a = Some (Container children) → c ∈ children →
    is_polygon h (child_addr c) ∨ (child_addr c < a)%nat.

(** *** The point lines of a [Polygon] record *)

(** What ends the reading of a point: a line with too few fields
    ([things[i]]), or a field that [strip], [split] and [int] do not turn
    into two numbers. *)
Inductive read_error : Type :=
| IndexError
| ValueError.

(** A field of a point line, as [coord = things[i].strip('()').split(",")]
    and [(int(coord[0]), int(coord[1]))] read it. *)
Inductive token : Type :=
| Coord (x y : Z)
| BadToken (e : read_error).

(** [things[0]], ..., [things[k-1]] read in turn, each appended to
    [points]. *)
Fixpoint take_points (k : nat) (things : list token) (points : list (Z * Z))
    : read_error + list (Z * Z) :=
  match k with
  | O => inr points
  | S k' =>
      match things with
      | [] => inl IndexError
      | BadToken e :: _ => inl e
      | Coord x y :: rest => take_points k' rest (points ++ [(x, y)])
      end
  end.

(** The [while True] loop of the [Polygon] branch: each turn reads a line
    ([lines] are the lines still unread, already split; at the end of the
    file [readline] gives the empty line), takes four points from it, or
    the three, two or one still missing, and stops when none is missing.
    [turns] bounds the number of turns; [None] is a loop still running. The
    result is the points and the lines left unread. *)
Fixpoint read_points (turns : nat) (numPointsLeft : Z) (lines : list (list token))
    (points : list (Z * Z))
    : option (read_error + list (Z * Z) * list (list token)) :=
  match turns with
  | O => None
  | S turns' =>
      let things := hd [] lines in
      let lines := tl lines in
      let k :=
        if 4 <=? numPointsLeft then 4
        else if numPointsLeft =? 3 then 3
        else if numPointsLeft =? 2 then 2
        else if numPointsLeft =? 1 then 1
        else 0 in
      match take_points (Z.to_nat k) things points with
      | inl e => Some (inl e)
      | inr points =>
          let numPointsLeft := numPointsLeft - k in
          if numPointsLeft =? 0 then Some (inr (points, lines))
          else read_points turns' numPointsLeft lines points
      end
  end.

(** The points a line offers: its first four fields. *)
Definition line_coords (things : list token) : list (Z * Z) :=
  omap (λ t, match t with Coord x y => Some (x, y) | BadToken _ => None end)
    (firstn 4 things).

(** *** More example inputs *)

(** A cell that places itself. *)
Definition self_placing_input : list record :=
  [ CellName "A"; Rectangle 31 0 0 10 20; CellInstance "A" 0 0 0 false;
    EndCellDefinition ].

(** The point lines of a polygon of five points, and the line after them. *)
Definition five_point_lines : list (list token) :=
  [ [Coord 0 0; Coord 100 0; Coord 100 100; Coord 0 100]; [Coord 0 0]; [] ].



(** * Properties *)

(** ** Floats that compare equal to an int literal *)

Section FloatFacts.

Lemma SFeqb_finite_inv x s m e :
  SFeqb x (S754_finite s m e) = true → x = S754_finite s m e.
Proof.
  unfold SFeqb, SFcompare.
  destruct x as [sx| sx | | sx mx ex]; try (destruct s; discriminate).
  - destruct sx; destruct s; discriminate.
  - change (Pos.compare_cont Eq mx m) with (Pos.compare mx m).
    destruct sx, s; try discriminate;
      destruct (Z.compare_spec ex e) as [->| |]; try discriminate;
      destruct (Pos.compare_spec mx m) as [->| |]; simpl; try discriminate;
      reflexivity.
Qed.

Lemma SFeqb_zero_inv x s :
  SFeqb x (S754_zero s) = true → ∃ s', x = S754_zero s'.
Proof.
  unfold SFeqb, SFcompare.
  destruct x as [sx| sx | | sx mx ex]; try discriminate; eauto.
  - destruct sx; discriminate.
  - destruct sx; discriminate.
Qed.

Lemma float_eqb_nonzero f k s m e :
  Prim2SF (float_of_int k) = S754_finite s m e →
  PrimFloat.eqb f (float_of_int k) = true → f = float_of_int k.
Proof.
  intros Hk. rewrite FloatAxioms.eqb_spec, Hk. intros H%SFeqb_finite_inv.
  rewrite <- (SF2Prim_Prim2SF f), <- (SF2Prim_Prim2SF (float_of_int k)).
  congruence.
Qed.

Lemma float_eqb_zero f :
  PrimFloat.eqb f (float_of_int 0) = true → f = 0%float ∨ f = (-0)%float.
Proof.
  rewrite FloatAxioms.eqb_spec.
  change (Prim2SF (float_of_int 0)) with (S754_zero false).
  intros [s' H]%SFeqb_zero_inv.
  rewrite <- (SF2Prim_Prim2SF f), H. destruct s'; [right|left]; reflexivity.
Qed.

(** The Python numbers equal to a right angle: the int, the float, and for
    0 also the negative zero. *)
Lemma angle_is_cases angle r :
  angle_is angle r →
  angle = PInt (degrees r) ∨ angle = PFloat (float_of_int (degrees r))
  ∨ (r = Deg0 ∧ angle = PFloat (-0)%float).
Proof.
  unfold angle_is. destruct angle as [z|f]; simpl.
  - intros ->%Z.eqb_eq. by left.
  - intros H. right. destruct r; simpl in *.
    + apply float_eqb_zero in H as [->| ->]; [left|right]; done.
    + left. f_equal. eapply float_eqb_nonzero; [|done]. vm_compute. reflexivity.
    + left. f_equal. eapply float_eqb_nonzero; [|done]. vm_compute. reflexivity.
    + left. f_equal. eapply float_eqb_nonzero; [|done]. vm_compute. reflexivity.
Qed.

End FloatFacts.

(** ** The single-level transform *)

Section Transform.

Variables (x y ox oy : pynum) (mirror : bool).

(** C2. For every point, every angle equal to 0, 90, 180 or 270, every mirror
    flag and every offset, [rot_mirror_and_offset] is the right-angle
    rotation, then the negation of y when mirrored, then the componentwise
    addition of the offset, in this order. *)
Theorem C2_rotate_mirror_offset_in_order angle r :
  angle_is angle r →
  rot_mirror_and_offset x y angle mirror ox oy
  = spec_compose (x, y) r mirror (ox, oy).
Proof.
  intros H. destruct (angle_is_cases _ _ H) as [->|[->|[-> ->]]];
    try destruct r; destruct mirror; reflexivity.
Qed.

(** C10. An angle that is none of 90, 180 and 270 is treated as angle 0: the
    function falls through to the unrotated branch and returns a pair. *)
Theorem C10_unsupported_angle_is_no_rotation angle :
  py_eq_int angle 90 = false →
  py_eq_int angle 180 = false →
  py_eq_int angle 270 = false →
  rot_mirror_and_offset x y angle mirror ox oy
  = rot_mirror_and_offset x y (PInt 0) mirror ox oy.
Proof.
  intros H90 H180 H270. unfold rot_mirror_and_offset.
  rewrite H90, H180, H270. reflexivity.
Qed.

End Transform.

(** The point (1,2), turned by 90 degrees, mirrored and moved by (10,20). *)
Lemma C2_witness :
  angle_is (PFloat 90) Deg90 ∧
  rot_mirror_and_offset (PFloat 1) (PFloat 2) (PFloat 90) true (PFloat 10) (PFloat 20)
  = (PFloat 8, PFloat 19).
Proof.
  split; [reflexivity|].
  rewrite (C2_rotate_mirror_offset_in_order _ _ _ _ _ _ Deg90); reflexivity.
Defined.

(** The angles 45, -90, 90.5 and nan leave the point (1,2) unrotated. *)
Lemma C10_witness :
  rot_mirror_and_offset (PFloat 1) (PFloat 2) (PFloat 45) true (PFloat 10) (PFloat 20)
  = (PFloat 11, PFloat 18) ∧
  rot_mirror_and_offset (PFloat 1) (PFloat 2) (PInt (-90)) false (PFloat 10) (PFloat 20)
  = (PFloat 11, PFloat 22) ∧
  rot_mirror_and_offset (PFloat 1) (PFloat 2) (PFloat 90.5) false (PFloat 10) (PFloat 20)
  = (PFloat 11, PFloat 22) ∧
  rot_mirror_and_offset (PFloat 1) (PFloat 2) (PFloat nan) false (PFloat 10) (PFloat 20)
  = (PFloat 11, PFloat 22).
Proof.
  refine (conj _ (conj _ (conj _ _)));
    rewrite C10_unsupported_angle_is_no_rotation by reflexivity; reflexivity.
Defined.

(** ** Resolution as a function of the heap *)

(** The table is looked up by its lemmas or by evaluation, never unfolded
    in place. *)
#[global] Opaque layer_colors.

Section Resolution.

Lemma unknown_layers_app {A} (r1 r2 : list (Z * A)) :
  unknown_layers (r1 ++ r2) = unknown_layers r1 ∪ unknown_layers r2.
Proof.
  unfold unknown_layers. rewrite map_app, filter_app, list_to_set_app_L. done.
Qed.

Lemma unknown_layers_nil {A} : unknown_layers (@nil (Z * A)) = ∅.
Proof. reflexivity. Qed.

Lemma after_emitting_nil s : after_emitting [] s = s.
Proof.
  destruct s. unfold after_emitting. simpl. f_equal.
  - rewrite unknown_layers_nil. set_solver.
  - apply app_nil_r.
Qed.

Lemma after_emitting_app r1 r2 s :
  after_emitting r2 (after_emitting r1 s) = after_emitting (r1 ++ r2) s.
Proof.
  unfold after_emitting. simpl. f_equal.
  - rewrite unknown_layers_app. set_solver.
  - by rewrite app_assoc.
Qed.

Lemma unknown_layers_one {A} layer (e : A) :
  unknown_layers [(layer, e)]
  = match layer_colors !! layer with Some _ => ∅ | None => {[ layer ]} end.
Proof.
  unfold unknown_layers. simpl. rewrite filter_cons, filter_nil.
  destruct (decide _) as [E|E]; destruct (layer_colors !! layer); try done.
  simpl. set_solver.
Qed.

Lemma Polygon_print_me_after points layer id x y angle mirror s :
  Polygon_print_me points layer id x y angle mirror s
  = after_emitting
      [(layer, PathElement (map (emit_point x y angle mirror) points) id
                 (fst (resolve_color layer ∅)))] s.
Proof.
  unfold Polygon_print_me, after_emitting, resolve_color.
  rewrite unknown_layers_one.
  destruct (layer_colors !! layer); simpl; f_equal; set_solver.
Qed.

Lemma Container_loop_emitted h print_child emitted_child :
  (∀ a x y angle mirror s,
     heap s = h →
     print_child a x y angle mirror s
     = recs ← emitted_child a x y angle mirror; Ok (after_emitting recs s)) →
  ∀ children x y angle mirror s,
    heap s = h →
    Container_loop print_child children x y angle mirror s
    = recs ← emitted_children emitted_child children x y angle mirror;
      Ok (after_emitting recs s).
Proof.
  intros Hchild children x y angle mirror.
  induction children as [|[[[[c0 c1] c2] c3] c4] rest IH]; intros s Hs; simpl.
  - by rewrite after_emitting_nil.
  - destruct (rot_mirror_and_offset c1 c2 angle mirror x y) as [c_x c_y].
    rewrite Hchild by done.
    destruct (emitted_child c0 c_x c_y _ _) as [recs|e]; simpl; [|done].
    rewrite IH by done.
    destruct (emitted_children emitted_child rest x y angle mirror) as [recs'|e];
      simpl; [|done].
    by rewrite after_emitting_app.
Qed.

(** [print_me] appends to [to_write] the records [emitted] computes from the
    heap, adds their unknown layers to [undefined_layers], and changes
    nothing else; it raises exactly when [emitted] does. *)
Lemma print_me_emitted depth :
  ∀ a x y angle mirror s,
    print_me depth a x y angle mirror s
    = recs ← emitted depth (heap s) a x y angle mirror;
      Ok (after_emitting recs s).
Proof.
  induction depth as [|depth IH]; intros a x y angle mirror s; simpl; [done|].
  destruct (heap s !! a) as [[children|points layer id]|]; simpl; [| |done].
  - apply (Container_loop_emitted (heap s)); [|done].
    intros a' x' y' angle' mirror' s' <-. apply IH.
  - by rewrite Polygon_print_me_after.
Qed.

End Resolution.

(** ** What a resolution emits *)

Section Emitted.

Variable h : list object.

Lemma emit_point_flip x y angle mirror p :
  emit_point x y angle mirror p
  = flip_y (rot_mirror_and_offset (fst p) (snd p) angle mirror x y).
Proof.
  unfold emit_point, flip_y.
  by destruct (rot_mirror_and_offset (fst p) (snd p) angle mirror x y).
Qed.

Lemma resolve_color_default layer undef :
  fst (resolve_color layer undef) = default fallback_color (layer_colors !! layer).
Proof. unfold resolve_color. by destruct (layer_colors !! layer). Qed.

Lemma emitted_polygon depth a points layer id x y angle mirror :
  h !! a = Some (Polygon points layer id) →
  emitted (S depth) h a x y angle mirror
  = Ok [record_of points layer id (x, y, angle, mirror)].
Proof.
  intros Ha. simpl. rewrite Ha. unfold record_of.
  rewrite resolve_color_default. do 4 f_equal.
  apply map_ext. intros p. apply emit_point_flip.
Qed.

(** The records of a container are those of its children, in order; each
    child is sent the unflipped origin. *)
Lemma emitted_children_inv emitted_child children x y angle mirror recs :
  emitted_children emitted_child children x y angle mirror = Ok recs →
  ∀ r, r ∈ recs ↔
    ∃ c0 c1 c2 c3 c4 recs',
      (c0, c1, c2, c3, c4) ∈ children ∧
      emitted_child c0
        (fst (rot_mirror_and_offset c1 c2 angle mirror x y))
        (snd (rot_mirror_and_offset c1 c2 angle mirror x y))
        (py_mod360 (py_add c3 angle)) (xorb c4 mirror) = Ok recs' ∧
      r ∈ recs'.
Proof.
  revert recs.
  induction children as [|[[[[c0 c1] c2] c3] c4] rest IH]; intros recs; simpl.
  - intros [= <-] r. split; [by intros ?%elem_of_nil|].
    by intros (?&?&?&?&?&?&?%elem_of_nil&_).
  - destruct (rot_mirror_and_offset c1 c2 angle mirror x y) as [c_x c_y] eqn:E.
    destruct (emitted_child c0 c_x c_y _ _) as [recs1|] eqn:E1; simpl; [|done].
    destruct (emitted_children emitted_child rest x y angle mirror)
      as [recs2|] eqn:E2; simpl; [|done].
    intros [= <-] r. rewrite elem_of_app, (IH recs2 eq_refl r). split.
    + intros [Hr|(d0&d1&d2&d3&d4&recs'&Hin&Hd&Hr)].
      * exists c0, c1, c2, c3, c4, recs1. rewrite E. simpl.
        split_and!; [left|done|done].
      * exists d0, d1, d2, d3, d4, recs'. split_and!; [by right|done|done].
    + intros (d0&d1&d2&d3&d4&recs'&Hin&Hd&Hr).
      apply elem_of_cons in Hin as [[= -> -> -> -> ->]|Hin].
      * left. rewrite E in Hd. simpl in Hd. congruence.
      * right. eauto 10.
Qed.

Lemma emitted_children_ok emitted_child children x y angle mirror recs :
  emitted_children emitted_child children x y angle mirror = Ok recs →
  ∀ c0 c1 c2 c3 c4,
    (c0, c1, c2, c3, c4) ∈ children →
    ∃ recs',
      emitted_child c0
        (fst (rot_mirror_and_offset c1 c2 angle mirror x y))
        (snd (rot_mirror_and_offset c1 c2 angle mirror x y))
        (py_mod360 (py_add c3 angle)) (xorb c4 mirror) = Ok recs'.
Proof.
  revert recs.
  induction children as [|[[[[d0 d1] d2] d3] d4] rest IH]; intros recs; simpl.
  - by intros _ ? ? ? ? ? ?%elem_of_nil.
  - destruct (rot_mirror_and_offset d1 d2 angle mirror x y) as [c_x c_y] eqn:E.
    destruct (emitted_child d0 c_x c_y _ _) as [recs1|] eqn:E1; simpl; [|done].
    destruct (emitted_children emitted_child rest x y angle mirror)
      as [recs2|] eqn:E2; simpl; [|done].
    intros _ c0 c1 c2 c3 c4 [[= -> -> -> -> ->]|Hin]%elem_of_cons.
    + rewrite E. simpl. eauto.
    + eapply IH; eauto.
Qed.

Lemma emitted_sound depth :
  ∀ a t recs,
    emitted depth h a t.1.1.1 t.1.1.2 t.1.2 t.2 = Ok recs →
    ∀ r, r ∈ recs →
      ∃ a' t' points layer id,
        rtc (descends h) (a, t) (a', t') ∧
        h !! a' = Some (Polygon points layer id) ∧
        r = record_of points layer id t'.
Proof.
  induction depth as [|depth IH]; intros a [[[x y] angle] mirror] recs; simpl; [done|].
  destruct (h !! a) as [[children|points layer id]|] eqn:Ha; [| |done].
  - intros Hrecs r Hr.
    apply (emitted_children_inv _ _ _ _ _ _ _ Hrecs) in Hr
      as (c0&c1&c2&c3&c4&recs'&Hin&Hc&Hr).
    destruct (IH c0 (_, _, _, _) recs' Hc r Hr) as (a'&t'&pts&layer&id&Hrtc&Ha'&->).
    exists a', t', pts, layer, id. split_and!; [|done|done].
    eapply rtc_l; [|exact Hrtc]. by eapply descends_child.
  - intros Hrecs r Hr.
    pose proof (emitted_polygon depth a points layer id x y angle mirror Ha) as E.
    simpl in E. rewrite Ha in E. rewrite E in Hrecs. injection Hrecs as <-.
    apply list_elem_of_singleton in Hr as ->.
    exists a, (x, y, angle, mirror), points, layer, id. done.
Qed.

Lemma emitted_complete depth :
  ∀ a t recs,
    emitted depth h a t.1.1.1 t.1.1.2 t.1.2 t.2 = Ok recs →
    ∀ a' t' points layer id,
      rtc (descends h) (a, t) (a', t') →
      h !! a' = Some (Polygon points layer id) →
      record_of points layer id t' ∈ recs.
Proof.
  induction depth as [|depth IH]; intros a [[[x y] angle] mirror] recs; [done|].
  intros Hrecs a' t' points layer id Hrtc Ha'.
  apply rtc_inv in Hrtc as [[= <- <-]|(v&Hstep&Hrtc)].
  - rewrite (emitted_polygon _ _ _ _ _ _ _ _ _ Ha') in Hrecs.
    injection Hrecs as <-. apply list_elem_of_singleton. done.
  - inversion Hstep as [b children c0 c1 c2 c3 c4 ? ? ? ? Hb Hin]; subst.
    simpl in Hrecs. rewrite Hb in Hrecs.
    destruct (emitted_children_inv _ _ _ _ _ _ _ Hrecs
                (record_of points layer id t')) as [_ Hback].
    apply Hback.
    destruct (emitted_children_ok _ _ _ _ _ _ _ Hrecs _ _ _ _ _ Hin) as [recs' Hc].
    exists c0, c1, c2, c3, c4, recs'. split_and!; [done|done|].
    eapply (IH c0 (_, _, _, _)); [exact Hc|exact Hrtc|exact Ha'].
Qed.

End Emitted.

(** ** Resolution returns, and leaves the tree as it was *)

Section Frame.

(** With the recursion limit above the depth of the placements below the
    root, the resolution emits its records: it raises nothing. *)
Lemma emitted_total h depth :
  ∀ a x y angle mirror,
    within_depth depth h a = true →
    ∃ recs, emitted depth h a x y angle mirror = Ok recs.
Proof.
  induction depth as [|depth IH]; intros a x y angle mirror; simpl; [done|].
  destruct (h !! a) as [[children|points layer id]|]; [|eauto|done].
  induction children as [|[[[[c0 c1] c2] c3] c4] rest IHc]; simpl; [eauto|].
  intros [Hc Hrest]%andb_prop.
  destruct (rot_mirror_and_offset c1 c2 angle mirror x y) as [c_x c_y].
  destruct (IH c0 c_x c_y (py_mod360 (py_add c3 angle)) (xorb c4 mirror) Hc)
    as [recs1 ->].
  destruct (IHc Hrest) as [recs2 ->]. simpl. eauto.
Qed.

(** Conversely, a resolution that returns stayed within its depth. *)
Lemma emitted_within_depth h depth :
  ∀ a x y angle mirror recs,
    emitted depth h a x y angle mirror = Ok recs → within_depth depth h a = true.
Proof.
  induction depth as [|depth IH]; intros a x y angle mirror recs; simpl; [done|].
  destruct (h !! a) as [[children|points layer id]|]; [|done|done].
  intros Hrecs. apply forallb_forall. intros [[[[c0 c1] c2] c3] c4] Hin.
  apply list_elem_of_In in Hin.
  destruct (emitted_children_ok _ _ _ _ _ _ _ Hrecs _ _ _ _ _ Hin) as [recs' Hc].
  simpl. eapply IH, Hc.
Qed.

Lemma print_me_total depth a x y angle mirror s :
  within_depth depth (heap s) a = true →
  ∃ recs,
    emitted depth (heap s) a x y angle mirror = Ok recs ∧
    print_me depth a x y angle mirror s = Ok (after_emitting recs s).
Proof.
  intros Hd. destruct (emitted_total _ _ a x y angle mirror Hd) as [recs E].
  exists recs. by rewrite print_me_emitted, E.
Qed.

Lemma print_me_inv depth a x y angle mirror s s' :
  print_me depth a x y angle mirror s = Ok s' →
  ∃ recs,
    emitted depth (heap s) a x y angle mirror = Ok recs ∧
    s' = after_emitting recs s.
Proof.
  rewrite print_me_emitted.
  destruct (emitted depth (heap s) a x y angle mirror) as [recs|]; simpl; [|done].
  intros [= <-]. eauto.
Qed.

(** C9. A resolution within the recursion limit returns, and changes no
    object of the heap (no children list, no point, layer or id), nor the
    counter or the cell table; [to_write] and [undefined_layers] only grow.
    A later resolution, from any root and transform, therefore emits the
    records it would have emitted before. *)
Theorem C9_resolution_only_reads depth a x y angle mirror s :
  within_depth depth (heap s) a = true →
  ∃ s',
    print_me depth a x y angle mirror s = Ok s' ∧
    heap s' = heap s ∧
    object_id s' = object_id s ∧
    cells s' = cells s ∧
    currentCell s' = currentCell s ∧
    (∃ recs, to_write s' = to_write s ++ recs) ∧
    undefined_layers s ⊆ undefined_layers s' ∧
    ∀ depth2 a2 x2 y2 angle2 mirror2,
      within_depth depth2 (heap s) a2 = true →
      ∃ t t' recs2,
        print_me depth2 a2 x2 y2 angle2 mirror2 s = Ok t ∧
        print_me depth2 a2 x2 y2 angle2 mirror2 s' = Ok t' ∧
        to_write t = to_write s ++ recs2 ∧
        to_write t' = to_write s' ++ recs2 ∧
        heap t' = heap s.
Proof.
  intros (recs&E&Hp)%(print_me_total _ _ x y angle mirror).
  exists (after_emitting recs s). simpl.
  split_and!; try done; [eauto|set_solver|].
  intros depth2 a2 x2 y2 angle2 mirror2
    (recs2&E2&Hp2)%(print_me_total _ _ x2 y2 angle2 mirror2).
  exists (after_emitting recs2 s), (after_emitting recs2 (after_emitting recs s)), recs2.
  split_and!; try done.
  rewrite print_me_emitted. simpl. by rewrite E2.
Qed.

End Frame.

Lemma C9_witness :
  within_depth 3 frame_heap 2%nat = true ∧
  ∃ s',
    print_me 3%nat 2%nat (PInt 0) (PInt 0) (PInt 0) false frame_state = Ok s' ∧
    heap s' = frame_heap.
Proof.
  split; [reflexivity|].
  destruct (C9_resolution_only_reads 3%nat 2%nat (PInt 0) (PInt 0) (PInt 0) false
              frame_state eq_refl) as (s'&Hp&Hheap&_).
  exists s'. split; [exact Hp|exact Hheap].
Defined.

(** ** Style of a layer without an entry *)

Section Style.

Lemma filter_eq_absent (l : list Z) k :
  k ∉ l → filter (λ j, j = k) l = [].
Proof.
  induction l as [|j l IH]; [done|].
  intros [Hne Hl]%not_elem_of_cons. rewrite filter_cons.
  destruct (decide (j = k)); [congruence|auto].
Qed.

Lemma count_in_NoDup (l : list Z) k :
  NoDup l → k ∈ l → length (filter (λ j, j = k) l) = 1%nat.
Proof.
  induction 1 as [|j l Hj Hl IH]; [by intros ?%elem_of_nil|].
  rewrite filter_cons. destruct (decide (j = k)) as [->|Hne].
  - intros _. simpl. by rewrite filter_eq_absent.
  - intros [?|Hk]%elem_of_cons; [congruence|auto].
Qed.

Lemma unknown_layers_elem {A} (recs : list (Z * A)) layer :
  layer ∈ unknown_layers recs ↔ layer_colors !! layer = None ∧ layer ∈ map fst recs.
Proof.
  unfold unknown_layers. by rewrite elem_of_list_to_set, list_elem_of_filter.
Qed.

(** C6. For a layer absent from [layer_colors]: the colours are the fixed
    fallback (black fill, opacity 0.8, black stroke); printing a primitive of
    that layer returns; and after a resolution that printed any number of
    primitives of that layer, [undefined_layers] lists the layer once. *)
Theorem C6_unknown_layer_fallback layer :
  layer_colors !! layer = None →
  (∀ undef,
     resolve_color layer undef = (("000000", "0.8", "000000"), {[ layer ]} ∪ undef)) ∧
  (∀ depth a points id x y angle mirror s,
     heap s !! a = Some (Polygon points layer id) →
     ∃ s',
       print_me (S depth) a x y angle mirror s = Ok s' ∧
       to_write s'
       = to_write s
         ++ [(layer, PathElement (map (emit_point x y angle mirror) points) id
                       ("000000", "0.8", "000000"))] ∧
       undefined_layers s' = {[ layer ]} ∪ undefined_layers s) ∧
  (∀ depth a x y angle mirror s s' recs,
     print_me depth a x y angle mirror s = Ok s' →
     to_write s' = to_write s ++ recs →
     layer ∈ map fst recs →
     (∀ e, (layer, e) ∈ recs → el_color e = ("000000", "0.8", "000000")) ∧
     layer ∈ undefined_layers s' ∧
     length (filter (λ l, l = layer) (elements (undefined_layers s'))) = 1%nat).
Proof.
  intros Hlayer. split_and!.
  - intros undef. unfold resolve_color. by rewrite Hlayer.
  - intros depth a points id x y angle mirror s Ha. eexists. simpl. rewrite Ha.
    split; [reflexivity|]. unfold Polygon_print_me, resolve_color.
    rewrite Hlayer. done.
  - intros depth a x y angle mirror s s' recs (recs0&E&->)%print_me_inv.
    simpl. intros ->%app_inv_head Hin.
    assert (layer ∈ unknown_layers recs ∪ undefined_layers s) as Hset.
    { apply elem_of_union_l, unknown_layers_elem. done. }
    split_and!; [|done|].
    + intros e He.
      destruct (emitted_sound _ _ a (x, y, angle, mirror) _ E _ He)
        as (a'&[[[x' y'] angle'] mirror']&pts&layer'&id&_&_&Hr).
      unfold record_of in Hr. injection Hr as -> ->. simpl.
      by rewrite Hlayer.
    + apply count_in_NoDup; [apply NoDup_elements|by apply elem_of_elements].
Qed.

End Style.

Lemma C6_witness :
  layer_colors !! 99 = None ∧
  resolve_color 99 ∅ = (("000000", "0.8", "000000"), {[ 99 ]} ∪ ∅).
Proof.
  split; [vm_compute; reflexivity|].
  apply (C6_unknown_layer_fallback 99). vm_compute. reflexivity.
Defined.

(** ** The path of a primitive *)

Section Path.

Lemma append_assoc (s1 s2 s3 : string) : (s1 +:+ s2) +:+ s3 = s1 +:+ s2 +:+ s3.
Proof.
  induction s1 as [|c s1 IH]; [done|].
  change (String c ((s1 +:+ s2) +:+ s3) = String c (s1 +:+ s2 +:+ s3)).
  by f_equal.
Qed.

Lemma append_nil_r (s : string) : s +:+ EmptyString = s.
Proof.
  induction s as [|c s IH]; [done|].
  change (String c (s +:+ EmptyString) = String c s). by f_equal.
Qed.

Variable repr_float : float → string.

Lemma path_loop_more pts :
  ∀ path, path_loop repr_float pts false path = path +:+ more_points repr_float pts.
Proof.
  induction pts as [|[my_x my_y] rest IH]; intros path;
    cbn [path_loop more_points].
  - by rewrite append_nil_r.
  - rewrite IH. unfold point_text. cbn [fst snd].
    by rewrite !append_assoc.
Qed.

Lemma concat_more p rest :
  String.concat " L" (map (point_text repr_float) (p :: rest))
  = point_text repr_float p +:+ more_points repr_float rest.
Proof.
  revert p. induction rest as [|q rest IH]; intros p.
  - simpl. by rewrite append_nil_r.
  - change (String.concat " L" (map (point_text repr_float) (p :: q :: rest)))
      with (point_text repr_float p +:+ " L"
            +:+ String.concat " L" (map (point_text repr_float) (q :: rest))).
    by rewrite IH.
Qed.

(** The path text: ["M"], one [" x,y"] per point with [" L"] between them,
    and the closing [" z"]. *)
Lemma path_text_concat pts :
  path_text repr_float pts
  = "M" +:+ String.concat " L" (map (point_text repr_float) pts) +:+ " z".
Proof.
  unfold path_text. destruct pts as [|[my_x my_y] rest]; [done|].
  rewrite concat_more.
  change (path_loop repr_float ((my_x, my_y) :: rest) true "M")
    with (path_loop repr_float rest false ("M" +:+ point_text repr_float (my_x, my_y))).
  rewrite path_loop_more. by rewrite !append_assoc.
Qed.

(** C3 (as the code has it). The records a resolution appends are exactly
    those of the primitives it reaches; the path of each is the primitive's
    points, one pair per stored point and in their order, each through the
    transform accumulated on the way (no flip on the way) and then with y
    negated once. The first point is not repeated: the path text ends with
    the closing command [" z"]. *)
Theorem C3_final_path depth a x y angle mirror s :
  within_depth depth (heap s) a = true →
  ∃ s' recs,
    print_me depth a x y angle mirror s = Ok s' ∧
    to_write s' = to_write s ++ recs ∧
    (∀ r, r ∈ recs ↔
       ∃ a' x' y' angle' mirror' points layer id,
         rtc (descends (heap s)) (a, (x, y, angle, mirror))
           (a', (x', y', angle', mirror')) ∧
         heap s !! a' = Some (Polygon points layer id) ∧
         r = (layer,
              PathElement
                (map (λ p, flip_y (rot_mirror_and_offset (fst p) (snd p)
                                     angle' mirror' x' y')) points)
                id (default fallback_color (layer_colors !! layer)))) ∧
    (∀ layer e,
       (layer, e) ∈ recs →
       path_text repr_float (el_points e)
       = "M" +:+ String.concat " L" (map (point_text repr_float) (el_points e))
         +:+ " z").
Proof.
  intros (recs&E&Hp)%(print_me_total _ _ x y angle mirror).
  exists (after_emitting recs s), recs. split_and!; [done|done| |].
  - intros r. split.
    + intros Hr.
      destruct (emitted_sound _ _ a (x, y, angle, mirror) _ E _ Hr)
        as (a'&[[[x' y'] angle'] mirror']&pts&layer&id&Hrtc&Ha'&->).
      exists a', x', y', angle', mirror', pts, layer, id. done.
    + intros (a'&x'&y'&angle'&mirror'&pts&layer&id&Hrtc&Ha'&->).
      apply (emitted_complete _ _ a (x, y, angle, mirror) _ E
               a' (x', y', angle', mirror') pts layer id Hrtc Ha').
  - intros layer e _. apply path_text_concat.
Qed.

End Path.

Lemma C3_witness :
  within_depth 3 frame_heap 2%nat = true ∧
  ∃ s' recs,
    print_me 3%nat 2%nat (PInt 0) (PInt 0) (PInt 0) false frame_state = Ok s' ∧
    to_write s' = to_write frame_state ++ recs.
Proof.
  split; [reflexivity|].
  destruct (C3_final_path (λ _, "?") 3%nat 2%nat (PInt 0) (PInt 0) (PInt 0) false
              frame_state eq_refl) as (s'&recs&Hp&Hrecs&_).
  exists s', recs. split; [exact Hp|exact Hrecs].
Defined.

(** The path of the triangle has its three points, the last one is not the
    first. *)
Lemma C3_counterexample :
  ∃ s e points,
    resolve_input 1000 triangle_input None = Ok s ∧
    heap s !! 1%nat = Some (Polygon points 31 "path0") ∧
    to_write s = [(31, e)] ∧
    el_points e
    ≠ closed_by_repeat
        (map (λ p, flip_y (rot_mirror_and_offset (fst p) (snd p)
                             (PInt 0) false (PInt 0) (PInt 0))) points).
Proof.
  eexists _, _, _. split_and!; [vm_compute; reflexivity..|].
  intros H. apply (f_equal length) in H. vm_compute in H. discriminate.
Qed.

(** ** Layer order of the dump *)

Section LayerOrder.

Context {A : Type}.
Implicit Types (x : Z * A) (l : list (Z * A)).

Lemma insert_by_layer_perm x l : Permutation (insert_by_layer x l) (x :: l).
Proof.
  induction l as [|y l IH]; simpl; [done|].
  destruct (fst y <? fst x); [|done].
  rewrite IH. apply perm_swap.
Qed.

Lemma sorted_by_layer_perm l : Permutation (sorted_by_layer l) l.
Proof.
  induction l as [|x l IH]; simpl; [done|].
  by rewrite insert_by_layer_perm, IH.
Qed.

Lemma insert_by_layer_sorted x l :
  Sorted (λ a b, fst a <= fst b) l →
  Sorted (λ a b, fst a <= fst b) (insert_by_layer x l).
Proof.
  induction 1 as [|y l Hl IH Hy]; simpl; [by repeat constructor|].
  destruct (Z.ltb_spec (fst y) (fst x)) as [Hlt|Hge].
  - constructor; [done|].
    destruct l as [|z l]; simpl in *; [constructor; lia|].
    destruct (Z.ltb_spec (fst z) (fst x)); constructor; [|lia].
    by inversion Hy.
  - by repeat constructor.
Qed.

Lemma sorted_by_layer_sorted l : Sorted (λ a b, fst a <= fst b) (sorted_by_layer l).
Proof.
  induction l as [|x l IH]; simpl; [constructor|by apply insert_by_layer_sorted].
Qed.

(** Inserting [x] leaves the records of each layer in their order, with [x]
    ahead of the records of its own layer. *)
Lemma insert_by_layer_filter k x l :
  filter (λ r, fst r = k) (insert_by_layer x l) = filter (λ r, fst r = k) (x :: l).
Proof.
  induction l as [|y l IH]; simpl; [done|].
  destruct (Z.ltb_spec (fst y) (fst x)) as [Hlt|Hge]; [|done].
  rewrite (filter_cons _ y), IH, !(filter_cons _ x), (filter_cons _ y).
  destruct (decide (fst y = k)), (decide (fst x = k)); try done. lia.
Qed.

Lemma sorted_by_layer_stable k l :
  filter (λ r, fst r = k) (sorted_by_layer l) = filter (λ r, fst r = k) l.
Proof.
  induction l as [|x l IH]; simpl; [done|].
  by rewrite insert_by_layer_filter, !filter_cons, IH.
Qed.

End LayerOrder.

(** C5. The dump replaces [to_write] by a rearrangement of the same records,
    ordered by layer ascending, in which the records of each layer keep
    their emission order, and writes one text per record in that order.
    Records emitted with layers 5, 1, 5, 3 come out as 1, 3, 5, 5 with the
    first-emitted layer-5 record before the second. *)
Theorem C5_dump_is_stable_sort repr_float s :
  Permutation (to_write (dump_to_write_to_file repr_float s).1) (to_write s) ∧
  Sorted (λ a b, fst a <= fst b) (to_write (dump_to_write_to_file repr_float s).1) ∧
  (∀ k, filter (λ r, fst r = k) (to_write (dump_to_write_to_file repr_float s).1)
        = filter (λ r, fst r = k) (to_write s)) ∧
  (dump_to_write_to_file repr_float s).2
  = map (λ x, element_text repr_float (snd x) +:+ nl)
      (to_write (dump_to_write_to_file repr_float s).1) ∧
  (∀ e1 e2 e3 e4 : path_element,
     sorted_by_layer [(5, e1); (1, e2); (5, e3); (3, e4)]
     = [(1, e2); (3, e4); (5, e1); (5, e3)]).
Proof.
  unfold dump_to_write_to_file. simpl. split_and!.
  - apply sorted_by_layer_perm.
  - apply sorted_by_layer_sorted.
  - intros k. apply sorted_by_layer_stable.
  - done.
  - done.
Qed.

(** ** Ingestion and undefined cells *)

Section Ingestion.

Lemma ingest_app pre post s :
  ingest (pre ++ post) s = s' ← ingest pre s; ingest post s'.
Proof.
  revert s. induction pre as [|r pre IH]; intros s; simpl; [done|].
  destruct (ingest_record r s) as [s1|e]; simpl; [apply IH|done].
Qed.

Lemma Container_add_cells self c s s' :
  Container_add self c s = Ok s' → cells s' = cells s.
Proof.
  unfold Container_add. destruct self as [a|]; [|done].
  destruct (heap s !! a) as [[children|? ? ?]|]; [|done|done].
  by intros [= <-].
Qed.

Lemma add_polygon_cells points layer s s' :
  add_polygon points layer s = Ok s' → cells s' = cells s.
Proof.
  unfold add_polygon, Polygon_init.
  destruct (scale_points points) as [scaled|e]; simpl; [|done].
  intros H%Container_add_cells. done.
Qed.

(** The cell table after a record: the names before, and the name a
    [Cell Name] record defines. *)
Lemma ingest_record_cells r s s' name :
  ingest_record r s = Ok s' →
  (cells s' !! name = None ↔ cells s !! name = None ∧ name ∉ cell_names [r]).
Proof.
  assert (∀ n : string, n ∉ @nil string) as Hnil by (intros n ?%elem_of_nil; done).
  destruct r as [n|n x y angle mirror| |layer x1 y1 x2 y2|layer points|]; simpl.
  - intros [= <-]. simpl. rewrite lookup_insert_None.
    unfold cell_names. simpl. rewrite list_elem_of_singleton. naive_solver.
  - destruct (int_truediv x 10), (int_truediv y 10); try done.
    destruct (cells s !! n); [|done].
    intros ->%Container_add_cells. naive_solver.
  - intros [= <-]. naive_solver.
  - intros ->%add_polygon_cells. naive_solver.
  - intros ->%add_polygon_cells. naive_solver.
  - intros [= <-]. naive_solver.
Qed.

Lemma cell_names_cons r rs : cell_names (r :: rs) = cell_names [r] ++ cell_names rs.
Proof. unfold cell_names. simpl. by destruct r. Qed.

Lemma ingest_cells rs :
  ∀ s s' name,
    ingest rs s = Ok s' →
    (cells s' !! name = None ↔ cells s !! name = None ∧ name ∉ cell_names rs).
Proof.
  induction rs as [|r rs IH]; intros s s' name; cbn [ingest].
  - intros [= <-]. split; [|naive_solver]. intros H. split; [done|].
    by intros ?%elem_of_nil.
  - destruct (ingest_record r s) as [s1|e] eqn:E; cbn [mbind result_bind]; [|done].
    intros H. rewrite (IH _ _ name H), (ingest_record_cells _ _ _ name E).
    rewrite (cell_names_cons r rs), elem_of_app. naive_solver.
Qed.

Lemma ingest_undefined rs s name :
  ingest rs initial_state = Ok s → name ∉ cell_names rs → cells s !! name = None.
Proof.
  intros H Hname. apply (ingest_cells _ _ _ name H). split; [|done].
  apply lookup_empty.
Qed.

Variable repr_float : float → string.

(** C4. A [Cell Instance] record or a root selection naming a cell that no
    [Cell Name] record defined ends the run with an uncaught [KeyError] for
    that name, whatever follows in the input: [print_me] is never called and
    the output file holds the header only, no path. *)
Theorem C4_undefined_cell_is_fatal recursion_limit name :
  (∀ pre x y angle mirror post argv3 s,
     ingest pre initial_state = Ok s →
     name ∉ cell_names pre →
     is_Some (int_truediv x 10) →
     is_Some (int_truediv y 10) →
     main repr_float recursion_limit
       (pre ++ CellInstance name x y angle mirror :: post) argv3
     = Run (make_svg_header 100 100) (Raise (KeyError name))) ∧
  (∀ records s,
     ingest records initial_state = Ok s →
     name ∉ cell_names records →
     main repr_float recursion_limit records (Some name)
     = Run (make_svg_header 100 100) (Raise (KeyError name))) ∧
  (∀ records argv3,
     name ∉ cell_names records →
     (∃ x y angle mirror, CellInstance name x y angle mirror ∈ records)
     ∨ argv3 = Some name →
     ∃ e, main repr_float recursion_limit records argv3
          = Run (make_svg_header 100 100) (Raise e)).
Proof.
  assert (∀ pre x y angle mirror post,
            name ∉ cell_names pre →
            ∃ e, ingest (pre ++ CellInstance name x y angle mirror :: post)
                   initial_state = Raise e) as Hinst.
  { intros pre x y angle mirror post Hname. rewrite ingest_app.
    destruct (ingest pre initial_state) as [s|e] eqn:E; simpl; [|eauto].
    rewrite (ingest_undefined _ _ _ E Hname).
    destruct (int_truediv x 10), (int_truediv y 10); simpl; eauto. }
  split_and!.
  - intros pre x y angle mirror post argv3 s E Hname [x' Hx] [y' Hy].
    unfold main. rewrite ingest_app, E. simpl.
    by rewrite Hx, Hy, (ingest_undefined _ _ _ E Hname).
  - intros records s E Hname. unfold main. rewrite E. simpl.
    by rewrite (ingest_undefined _ _ _ E Hname).
  - intros records argv3 Hname [(x&y&angle&mirror&Hin)| ->].
    + apply list_elem_of_split in Hin as (pre&post&->).
      destruct (Hinst pre x y angle mirror post) as [e E].
      { intros Hpre. apply Hname. unfold cell_names in *.
        rewrite omap_app. apply elem_of_app. by left. }
      exists e. unfold main. by rewrite E.
    + unfold main. destruct (ingest records initial_state) as [s|e] eqn:E; [|eauto].
      simpl. rewrite (ingest_undefined _ _ _ E Hname). eauto.
Qed.

End Ingestion.

Lemma C4_witness :
  main (λ _, "?") 1000
    ([CellName "A"; Rectangle 31 0 0 10 20]
       ++ CellInstance "X" 0 0 0 false :: [Rectangle 31 0 0 10 20]) None
  = Run (make_svg_header 100 100) (Raise (KeyError "X")).
Proof.
  eapply (C4_undefined_cell_is_fatal (λ _, "?") 1000 "X").
  - vm_compute. reflexivity.
  - intros [E|H]%elem_of_cons; [discriminate E|by apply elem_of_nil in H].
  - vm_compute. eauto.
  - vm_compute. eauto.
Defined.

(** ** Identifiers and stored points of polygons *)

Section Polygons.

Lemma scale_points_tenth points scaled :
  scale_points points = Ok scaled →
  Forall2 (λ raw st, tenth_of (fst raw) (fst st) ∧ tenth_of (snd raw) (snd st))
    points scaled.
Proof.
  revert scaled. induction points as [|[rx ry] rest IH]; intros scaled; simpl.
  - intros [= <-]. constructor.
  - destruct (int_truediv rx 10) as [px|] eqn:Ex; [|done].
    destruct (int_truediv ry 10) as [py|] eqn:Ey; [|done].
    destruct (scale_points rest) as [scaled'|]; simpl; [|done].
    intros [= <-]. constructor; [|by apply IH].
    split; eexists; eauto.
Qed.

(** An object that is a polygon stays what it is under [Container.add]. *)
Lemma Container_add_polygon self c s s' a points layer id :
  Container_add self c s = Ok s' →
  heap s !! a = Some (Polygon points layer id) →
  heap s' !! a = Some (Polygon points layer id).
Proof.
  unfold Container_add. destruct self as [b|]; [|done].
  destruct (heap s !! b) as [[children|? ? ?]|] eqn:Hb; [|done|done].
  intros [= <-] Ha. simpl.
  rewrite list_lookup_insert_ne; [done|].
  intros ->. unfold addr in *. rewrite Hb in Ha. discriminate.
Qed.

Lemma Polygon_init_polygon pts l s b s' a points layer id :
  Polygon_init pts l s = Ok (b, s') →
  heap s !! a = Some (Polygon points layer id) →
  heap s' !! a = Some (Polygon points layer id).
Proof.
  unfold Polygon_init. destruct (scale_points pts); simpl; [|done].
  intros [= <- <-] Ha. simpl. by apply lookup_app_l_Some.
Qed.

Lemma ingest_record_polygon r s s' a points layer id :
  ingest_record r s = Ok s' →
  heap s !! a = Some (Polygon points layer id) →
  heap s' !! a = Some (Polygon points layer id).
Proof.
  assert (∀ pts l, add_polygon pts l s = Ok s' →
            heap s !! a = Some (Polygon points layer id) →
            heap s' !! a = Some (Polygon points layer id)) as Hadd.
  { intros pts l. unfold add_polygon.
    destruct (Polygon_init pts l s) as [[p s1]|] eqn:E; simpl; [|done].
    intros Hc Ha. eapply Container_add_polygon; [exact Hc|].
    eapply Polygon_init_polygon; eauto. }
  destruct r as [n|n x y angle mirror| |l x1 y1 x2 y2|l pts|]; simpl.
  - intros [= <-] Ha. simpl. by apply lookup_app_l_Some.
  - destruct (int_truediv x 10), (int_truediv y 10); try done.
    destruct (cells s !! n); [|done]. apply Container_add_polygon.
  - by intros [= <-].
  - apply Hadd.
  - apply Hadd.
  - by intros [= <-].
Qed.

Lemma ingest_polygon rs :
  ∀ s s' a points layer id,
    ingest rs s = Ok s' →
    heap s !! a = Some (Polygon points layer id) →
    heap s' !! a = Some (Polygon points layer id).
Proof.
  induction rs as [|r rs IH]; intros s s' a points layer id; cbn [ingest].
  - by intros [= <-].
  - destruct (ingest_record r s) as [s1|] eqn:E; cbn [mbind result_bind]; [|done].
    intros H Ha. eapply IH; [exact H|]. eapply ingest_record_polygon; eauto.
Qed.

(** C8 (as the code has it). The constructor stores, for each raw
    coordinate, the float that the true division [raw / 10] returns; this
    happens once, and neither the rest of the ingestion nor a resolution
    changes the stored points. *)
Theorem C8_points_scaled_once points layer s a s' :
  Polygon_init points layer s = Ok (a, s') →
  ∃ stored,
    heap s' !! a = Some (Polygon stored layer ("path" +:+ pretty (object_id s))) ∧
    Forall2 (λ raw st, tenth_of (fst raw) (fst st) ∧ tenth_of (snd raw) (snd st))
      points stored ∧
    ∀ rs s1 depth b x y angle mirror s2,
      ingest rs s' = Ok s1 →
      print_me depth b x y angle mirror s1 = Ok s2 →
      heap s1 !! a = Some (Polygon stored layer ("path" +:+ pretty (object_id s))) ∧
      heap s2 !! a = Some (Polygon stored layer ("path" +:+ pretty (object_id s))).
Proof.
  unfold Polygon_init.
  destruct (scale_points points) as [stored|] eqn:E; simpl; [|done].
  intros [= <- <-]. exists stored. simpl. split_and!.
  - by rewrite lookup_app_r, Nat.sub_diag.
  - by apply scale_points_tenth.
  - intros rs s1 depth b x y angle mirror s2 Hrs Hp.
    assert (heap s1 !! length (heap s)
            = Some (Polygon stored layer ("path" +:+ pretty (object_id s)))) as H1.
    { eapply ingest_polygon; [exact Hrs|]. simpl.
      by rewrite lookup_app_r, Nat.sub_diag. }
    split; [done|].
    apply print_me_inv in Hp as (recs&_&->). done.
Qed.

End Polygons.

Lemma C8_witness :
  ∃ stored,
    heap (State [Polygon [(PFloat 1.5, PFloat (-2.5))] 31 "path0"] ∅ [] 1 ∅ None)
      !! 0%nat
    = Some (Polygon stored 31 "path0") ∧
    Forall2 (λ raw st, tenth_of (fst raw) (fst st) ∧ tenth_of (snd raw) (snd st))
      [(15, -25)] stored.
Proof.
  destruct (C8_points_scaled_once [(15, -25)] 31 initial_state 0%nat
              (State [Polygon [(PFloat 1.5, PFloat (-2.5))] 31 "path0"] ∅ [] 1 ∅ None))
    as (stored&H1&H2&_).
  - vm_compute. reflexivity.
  - exists stored. split; [exact H1|exact H2].
Defined.

(** Where the quotient is a binary64 value, the stored coordinate is exact. *)
Lemma tenth_exact_examples :
  tenth_of 15 (PFloat 1.5) ∧ exactly_tenth 15 (PFloat 1.5) ∧
  tenth_of (-25) (PFloat (-2.5)) ∧ exactly_tenth (-25) (PFloat (-2.5)).
Proof.
  split_and!.
  - eexists. split; [vm_compute; reflexivity|done].
  - eexists _, _. split; [vm_compute; reflexivity|done].
  - eexists. split; [vm_compute; reflexivity|done].
  - eexists _, _. split; [vm_compute; reflexivity|done].
Qed.

(** The coordinate stored for the raw value 1 is the float nearest to 1/10,
    which is not 1/10. *)
Lemma C8_counterexample :
  ∃ s stored_x stored_y,
    Polygon_init [(1, 0)] 31 initial_state = Ok (0%nat, s) ∧
    heap s !! 0%nat = Some (Polygon [(stored_x, stored_y)] 31 "path0") ∧
    ¬ exactly_tenth 1 stored_x.
Proof.
  eexists _, _, _. split_and!; [vm_compute; reflexivity..|].
  intros (n&d&H&Hnd). vm_compute in H. injection H as <- <-. discriminate Hnd.
Qed.

(** C7. On the input where cell A, holding one rectangle, is placed twice in
    cell B, the two records emitted carry the same id: the id is given to the
    [Polygon] object when it is created, not to the path when it is emitted. *)
Theorem C7_shared_primitive_repeats_id :
  ∃ s e1 e2,
    resolve_input 1000 shared_cell_input None = Ok s ∧
    to_write s = [(31, e1); (31, e2)] ∧
    el_id e1 = "path0" ∧ el_id e2 = "path0" ∧
    el_points e1 ≠ el_points e2 ∧
    ¬ NoDup (map (λ r, el_id (snd r)) (to_write s)).
Proof.
  eexists _, _, _. split_and!; [vm_compute; reflexivity..| |].
  - intros H.
    apply (f_equal (λ l, match l with
                         | (PFloat f, _) :: _ => Prim2SF f
                         | _ => S754_nan
                         end)) in H.
    vm_compute in H. discriminate.
  - vm_compute. intros H. apply NoDup_cons in H as [H _].
    apply H. left.
Qed.

(** ** Whole numbers in floats: sums without rounding *)

Section WholeFloats.

Lemma iter_xO p d : Pos.iter xO p d = shl p (Pos.to_nat d).
Proof. apply Pos2Nat.inj_iter. Qed.

Lemma shl_add p n m : shl (shl p n) m = shl p (n + m).
Proof. unfold shl. rewrite Nat.add_comm. symmetry. apply Nat.iter_add. Qed.

Lemma digits_shl p n :
  Zpos (digits2_pos (shl p n)) = Zpos (digits2_pos p) + Z.of_nat n.
Proof.
  induction n as [|n IH]; [simpl; lia|].
  change (shl p (S n)) with (xO (shl p n)). cbn [digits2_pos]. lia.
Qed.

Lemma Zpos_shl p n : Zpos (shl p n) = Zpos p * 2 ^ Z.of_nat n.
Proof.
  induction n as [|n IH]; [simpl; lia|].
  change (shl p (S n)) with (xO (shl p n)).
  rewrite Nat2Z.inj_succ, Z.pow_succ_r by lia. lia.
Qed.

Lemma iter_pos_nat {A} (f : A → A) d x :
  SpecFloat.iter_pos f d x = Nat.iter (Pos.to_nat d) f x.
Proof.
  revert x. induction d as [d IH|d IH|]; intros x; cbn [SpecFloat.iter_pos].
  - rewrite !IH, Pos2Nat.inj_xI. rewrite <- Nat.iter_succ_r.
    replace (S (2 * Pos.to_nat d))%nat with (Pos.to_nat d + S (Pos.to_nat d))%nat by lia.
    by rewrite Nat.iter_add.
  - rewrite !IH, Pos2Nat.inj_xO.
    replace (2 * Pos.to_nat d)%nat with (Pos.to_nat d + Pos.to_nat d)%nat by lia.
    by rewrite Nat.iter_add.
  - done.
Qed.

Lemma shr_shl q n :
  Nat.iter n shr_1 (Build_shr_record (Zpos (shl q n)) false false)
  = Build_shr_record (Zpos q) false false.
Proof.
  induction n as [|n IH]; [done|].
  rewrite Nat.iter_succ_r. change (shl q (S n)) with (xO (shl q n)). exact IH.
Qed.

Lemma shr_exact m e k :
  shr (Build_shr_record (Zpos (shl m k)) false false) (e - Z.of_nat k) (Z.of_nat k)
  = (Build_shr_record (Zpos m) false false, e).
Proof.
  destruct k as [|k].
  - simpl. f_equal. lia.
  - change (Z.of_nat (S k)) with (Zpos (Pos.of_succ_nat k)). unfold shr.
    rewrite iter_pos_nat, SuccNat2Pos.id_succ, shr_shl.
    f_equal. lia.
Qed.

(** A mantissa of 53 digits, [k] bits too far to the left, is brought back
    without rounding. *)
Lemma binary_round_aux_exact s m e k :
  Zpos (digits2_pos m) = prec →
  emin <= e <= emax - prec →
  binary_round_aux prec emax s (Zpos (shl m k)) (e - Z.of_nat k) loc_Exact
  = S754_finite s m e.
Proof.
  intros Hm He. unfold binary_round_aux, shr_fexp.
  cbn [shr_record_of_loc Zdigits2]. rewrite digits_shl, Hm.
  replace (fexp prec emax (prec + Z.of_nat k + (e - Z.of_nat k)) - (e - Z.of_nat k))
    with (Z.of_nat k)
    by (unfold fexp, SpecFloat.emin, prec, emax in *; lia).
  rewrite shr_exact.
  cbn [shr_m loc_of_shr_record round_nearest_even shr_record_of_loc Zdigits2].
  rewrite Hm.
  replace (fexp prec emax (prec + e) - e) with 0
    by (unfold fexp, SpecFloat.emin, prec, emax in *; lia).
  cbn [shr shr_m].
  destruct (Z.leb_spec e (emax - prec)); [done|lia].
Qed.

(** Rounding an integer of at most 53 digits, wherever its digits stand,
    gives its canonical form. *)
Lemma binary_round_shl s p j :
  Zpos (digits2_pos p) <= prec →
  binary_round prec emax s (shl p j) (- Z.of_nat j) = canon s p.
Proof.
  intros Hp. unfold binary_round, canon. rewrite digits_shl.
  set (d := Zpos (digits2_pos p)) in *.
  assert (0 < d) as Hd by (unfold d; lia).
  set (m := shl p (Z.to_nat (prec - d))).
  assert (Zpos (digits2_pos m) = prec) as Hm.
  { unfold m. rewrite digits_shl. fold d. unfold prec in *. lia. }
  replace (fexp prec emax (d + Z.of_nat j + - Z.of_nat j)) with (d - prec)
    by (unfold fexp, SpecFloat.emin, prec, emax in *; lia).
  unfold shl_align.
  destruct (d - prec - - Z.of_nat j) as [|n|n] eqn:E.
  - replace (shl p j) with (shl m 0)
      by (unfold m; rewrite shl_add; f_equal; unfold prec in *; lia).
    replace (- Z.of_nat j) with (d - prec - Z.of_nat 0) by (simpl; lia).
    apply binary_round_aux_exact; [done|unfold SpecFloat.emin, prec, emax in *; lia].
  - replace (shl p j) with (shl m (Pos.to_nat n))
      by (unfold m; rewrite shl_add; f_equal; unfold prec in *; lia).
    replace (- Z.of_nat j) with (d - prec - Z.of_nat (Pos.to_nat n)) by lia.
    apply binary_round_aux_exact; [done|unfold SpecFloat.emin, prec, emax in *; lia].
  - rewrite iter_xO, shl_add.
    replace (shl p (j + Pos.to_nat n)) with (shl m 0)
      by (unfold m; simpl; f_equal; unfold prec in *; lia).
    replace (d - prec) with (d - prec - Z.of_nat 0) at 1 by (simpl; lia).
    apply binary_round_aux_exact; [done|unfold SpecFloat.emin, prec, emax in *; lia].
Qed.

Lemma digits_size p : digits2_pos p = Pos.size p.
Proof. induction p as [p IH|p IH|]; simpl; by rewrite ?IH. Qed.

Lemma digits_bound p n : 0 <= n → Zpos p < 2 ^ n → Zpos (digits2_pos p) <= n.
Proof.
  intros Hn Hp. rewrite digits_size.
  pose proof (Pos.size_le p) as Hle.
  apply Pos2Z.pos_le_pos in Hle. rewrite Pos2Z.inj_pow in Hle.
  destruct (Z.le_gt_cases (Zpos (Pos.size p)) n) as [|Hgt]; [done|].
  assert (2 ^ Z.succ n <= 2 ^ Zpos (Pos.size p)) as Hpow
    by (apply Z.pow_le_mono_r; lia).
  rewrite Z.pow_succ_r in Hpow by lia. lia.
Qed.

Lemma shl_align_fst m ex ex' :
  ex' <= ex → fst (shl_align m ex ex') = shl m (Z.to_nat (ex - ex')).
Proof.
  intros Hle. unfold shl_align.
  destruct (ex' - ex) as [|n|n] eqn:E; [|lia|].
  - by replace (ex - ex') with 0 by lia.
  - cbn [fst]. rewrite iter_xO. f_equal. lia.
Qed.

Lemma cond_Zopp_shl s p n :
  cond_Zopp s (Zpos (shl p n)) = cond_Zopp s (Zpos p) * 2 ^ Z.of_nat n.
Proof. destruct s; cbn [cond_Zopp]; rewrite Zpos_shl; lia. Qed.

(** The float nearest to an integer below 2^53 in magnitude is the integer
    itself. *)
Lemma binary_normalize_pos p :
  Zpos p < 2 ^ prec → binary_normalize prec emax (Zpos p) 0 false = canon false p.
Proof.
  intros Hp. apply (binary_round_shl false p 0), digits_bound; [done|done].
Qed.

Lemma binary_normalize_neg p :
  Zpos p < 2 ^ prec → binary_normalize prec emax (Zneg p) 0 false = canon true p.
Proof.
  intros Hp. apply (binary_round_shl true p 0), digits_bound; [done|done].
Qed.

(** The sum of two such floats is the float of the sum, as long as the sum
    stays below 2^53. *)
Lemma SFadd_canon sa pa sb pb :
  Zpos pa < 2 ^ prec → Zpos pb < 2 ^ prec →
  Z.abs (cond_Zopp sa (Zpos pa) + cond_Zopp sb (Zpos pb)) < 2 ^ prec →
  SFadd prec emax (canon sa pa) (canon sb pb)
  = binary_normalize prec emax (cond_Zopp sa (Zpos pa) + cond_Zopp sb (Zpos pb)) 0 false.
Proof.
  intros Ha Hb Hab.
  pose proof (digits_bound pa prec ltac:(done) Ha) as Hda.
  pose proof (digits_bound pb prec ltac:(done) Hb) as Hdb.
  unfold SFadd, canon.
  set (ea := Zpos (digits2_pos pa) - prec) in *.
  set (eb := Zpos (digits2_pos pb) - prec) in *.
  set (K := Z.to_nat (- Z.min ea eb)).
  assert (Z.min ea eb = - Z.of_nat K) as HK by (unfold K, ea, eb; lia).
  rewrite !shl_align_fst, !shl_add, !cond_Zopp_shl by lia.
  replace (Z.to_nat (prec - Zpos (digits2_pos pa)) + Z.to_nat (ea - Z.min ea eb))%nat
    with K by (unfold K, ea, eb; lia).
  replace (Z.to_nat (prec - Zpos (digits2_pos pb)) + Z.to_nat (eb - Z.min ea eb))%nat
    with K by (unfold K, ea, eb; lia).
  rewrite <- Z.mul_add_distr_r, HK.
  destruct (cond_Zopp sa (Zpos pa) + cond_Zopp sb (Zpos pb)) as [|q|q].
  - done.
  - rewrite <- Zpos_shl. cbn [binary_normalize].
    rewrite binary_round_shl by (by apply digits_bound).
    symmetry. by apply binary_normalize_pos.
  - change (Zneg q) with (- Zpos q) at 1. rewrite Z.mul_opp_l, <- Zpos_shl.
    change (- Z.pos (shl q K)) with (Z.neg (shl q K)). cbn [binary_normalize].
    rewrite binary_round_shl by (by apply digits_bound).
    symmetry. by apply binary_normalize_neg.
Qed.

Lemma valid_canon s p : Zpos p < 2 ^ prec → valid_binary (canon s p) = true.
Proof.
  intros Hp. pose proof (digits_bound p prec ltac:(done) Hp) as Hd.
  unfold canon. cbn [SpecFloat.valid_binary]. unfold bounded, canonical_mantissa.
  rewrite digits_shl. apply andb_true_intro. split.
  - apply Z.eqb_eq. unfold fexp, SpecFloat.emin, prec, emax in *. lia.
  - apply Z.leb_le. unfold prec, emax in *. lia.
Qed.

Lemma Prim2SF_float_of_int z :
  Z.abs z < 2 ^ prec →
  Prim2SF (float_of_int z) = binary_normalize prec emax z 0 false.
Proof.
  intros Hz. unfold float_of_int. apply Prim2SF_SF2Prim.
  destruct z as [|p|p].
  - done.
  - rewrite binary_normalize_pos by done. by apply valid_canon.
  - rewrite binary_normalize_neg by done. by apply valid_canon.
Qed.

Lemma float_of_int_add a b :
  Z.abs a < 2 ^ 52 → Z.abs b < 2 ^ 52 →
  (float_of_int a + float_of_int b)%float = float_of_int (a + b).
Proof.
  intros Ha Hb.
  assert (Z.abs a < 2 ^ prec ∧ Z.abs b < 2 ^ prec ∧ Z.abs (a + b) < 2 ^ prec)
    as (Ha'&Hb'&Hab) by (unfold prec; lia).
  apply Prim2SF_inj. rewrite add_spec, !Prim2SF_float_of_int by done.
  destruct a as [|pa|pa], b as [|pb|pb];
    rewrite ?binary_normalize_pos, ?binary_normalize_neg by done;
    try reflexivity.
  - change (0 + Z.pos pb) with (Z.pos pb). by rewrite binary_normalize_pos.
  - change (0 + Z.neg pb) with (Z.neg pb). by rewrite binary_normalize_neg.
  - rewrite Z.add_0_r. by rewrite binary_normalize_pos.
  - apply (SFadd_canon false pa false pb); done.
  - apply (SFadd_canon false pa true pb); done.
  - rewrite Z.add_0_r. by rewrite binary_normalize_neg.
  - apply (SFadd_canon true pa false pb); done.
  - apply (SFadd_canon true pa true pb); done.
Qed.

Lemma float_of_int_opp z :
  z ≠ 0 → Z.abs z < 2 ^ prec → (- float_of_int z)%float = float_of_int (- z).
Proof.
  intros Hz Hb. apply Prim2SF_inj.
  rewrite opp_spec, !Prim2SF_float_of_int by lia.
  destruct z as [|p|p]; [done| |].
  - change (- Z.pos p) with (Z.neg p).
    by rewrite binary_normalize_pos, binary_normalize_neg by lia.
  - change (- Z.neg p) with (Z.pos p).
    by rewrite binary_normalize_pos, binary_normalize_neg by lia.
Qed.

Lemma neg_zero_add z :
  Z.abs z < 2 ^ prec → (neg_zero + float_of_int z)%float = float_of_int z.
Proof.
  intros Hz. apply Prim2SF_inj. rewrite add_spec, Prim2SF_float_of_int by done.
  destruct z as [|p|p]; [done| |].
  - by rewrite binary_normalize_pos.
  - by rewrite binary_normalize_neg.
Qed.

Lemma float_of_int_proper z :
  Z.abs z < 2 ^ prec → float_of_int z ≠ neg_zero.
Proof.
  intros Hz E. apply (f_equal Prim2SF) in E.
  rewrite Prim2SF_float_of_int in E by done.
  destruct z as [|p|p]; [discriminate E| |].
  - rewrite binary_normalize_pos in E by done. discriminate E.
  - rewrite binary_normalize_neg in E by done. discriminate E.
Qed.



(** *** On Python numbers *)

Lemma whole_value x z : whole x z → value x z.
Proof. by left. Qed.

Lemma value_neg x z : value x z → Z.abs z < 2 ^ 52 → value (py_neg x) (- z).
Proof.
  intros [[->| ->]|[-> ->]] Hz.
  - by left; left.
  - destruct (Z.eq_dec z 0) as [->|Hne].
    + right. done.
    + left. right. cbn [py_neg]. by rewrite float_of_int_opp by (unfold prec; lia).
  - left. right. done.
Qed.

(** The sum with a number that is not -0.0 is the int or float of the sum. *)
Lemma value_add x y a b :
  value x a → whole y b → Z.abs a < 2 ^ 52 → Z.abs b < 2 ^ 52 →
  whole (py_add x y) (a + b).
Proof.
  intros [[->| ->]|[-> ->]] [->| ->] Ha Hb; cbn [py_add].
  - by left.
  - right. by rewrite float_of_int_add.
  - right. by rewrite float_of_int_add.
  - right. by rewrite float_of_int_add.
  - right. by rewrite neg_zero_add by (unfold prec; lia).
  - right. by rewrite neg_zero_add by (unfold prec; lia).
Qed.




End WholeFloats.

(** The whole number an expression of [py_add] and [py_neg] holds: the right
    operand of every sum is an int, a stored float or a sum. *)
Ltac value_of :=
  lazymatch goal with
  | |- value (py_neg _) _ => eapply value_neg; [value_of|lia]
  | |- value _ _ => apply whole_value; whole_of
  end
with whole_of :=
  lazymatch goal with
  | |- whole (py_add _ _) _ => eapply value_add; [value_of|whole_of|lia|lia]
  | |- whole (PInt _) _ => left; reflexivity
  | |- whole _ _ => eassumption
  end.


(** ** Two levels of placement *)

Section TwoLevels.

(** Angles add up modulo 360 as right angles do. *)
Lemma angle_is_sum a1 r1 a2 r2 :
  angle_is a1 r1 → angle_is a2 r2 →
  angle_is (py_mod360 (py_add a1 a2)) (add_angle r1 r2).
Proof.
  intros H1 H2.
  destruct (angle_is_cases _ _ H1) as [->|[->|[-> ->]]];
    destruct (angle_is_cases _ _ H2) as [->|[->|[-> ->]]];
    try destruct r1; try destruct r2; vm_compute; reflexivity.
Qed.

Lemma compose_steps p t r :
  angle_is (pl_angle t) r →
  compose p t = spec_offset (pl_x t, pl_y t) (spec_mirror (pl_mirror t) (spec_rotate r p)).
Proof.
  intros H. destruct p as [x y], t as [ox oy angle mirror].
  unfold compose. simpl in *.
  destruct (angle_is_cases _ _ H) as [->|[->|[-> ->]]];
    try destruct r; destruct mirror; reflexivity.
Qed.











End TwoLevels.



(** ** States reached by ingestion *)

Section Ingested.

Lemma Container_add_inv self c s s' :
  Container_add self c s = Ok s' →
  ∃ a children,
    self = Some a ∧ heap s !! a = Some (Container children) ∧
    s' = {| heap := <[a := Container (children ++ [c])]> (heap s);
            undefined_layers := undefined_layers s;
            to_write := to_write s;
            object_id := object_id s;
            cells := cells s;
            currentCell := currentCell s |}.
Proof.
  unfold Container_add. destruct self as [a|]; [|done].
  destruct (heap s !! a) as [[children|? ? ?]|] eqn:Ha; [|done|done].
  intros [= <-]. eauto.
Qed.

Lemma Polygon_init_inv points layer s p s1 :
  Polygon_init points layer s = Ok (p, s1) →
  ∃ scaled,
    scale_points points = Ok scaled ∧ p = length (heap s) ∧
    s1 = {| heap := heap s ++ [Polygon scaled layer ("path" +:+ pretty (object_id s))];
            undefined_layers := undefined_layers s;
            to_write := to_write s;
            object_id := S (object_id s);
            cells := cells s;
            currentCell := currentCell s |}.
Proof.
  unfold Polygon_init. destruct (scale_points points) as [scaled|]; simpl; [|done].
  intros [= <- <-]. eauto.
Qed.

(** The kind of an object survives an allocation and a [Container.add]. *)
Lemma is_polygon_app h o a : is_polygon h a → is_polygon (h ++ [o]) a.
Proof. intros (p&l&i&H). exists p, l, i. by apply lookup_app_l_Some. Qed.

Lemma is_container_app h o a : is_container h a → is_container (h ++ [o]) a.
Proof. intros (cs&H). exists cs. by apply lookup_app_l_Some. Qed.

Lemma is_polygon_insert h b cs cs' a :
  h !! b = Some (Container cs) →
  is_polygon h a → is_polygon (<[b := Container cs']> h) a.
Proof.
  intros Hb (p&l&i&H). exists p, l, i.
  rewrite list_lookup_insert_ne; [done|]. intros ->. unfold addr in *. congruence.
Qed.

Lemma is_container_insert h b cs' a :
  is_container h a → is_container (<[b := Container cs']> h) a.
Proof.
  intros (cs&H). destruct (decide (b = a)) as [->|Hne].
  - exists cs'. rewrite list_lookup_insert_eq; [done|]. by eapply lookup_lt_Some.
  - exists cs. by rewrite list_lookup_insert_ne.
Qed.

Lemma polygon_ids_insert h b cs cs' :
  h !! b = Some (Container cs) →
  polygon_ids (<[b := Container cs']> h) = polygon_ids h.
Proof.
  revert b. induction h as [|o h IH]; intros [|b]; simpl; try done.
  - by intros [= ->].
  - intros Hb. unfold polygon_ids in *. simpl. by rewrite IH.
Qed.

Lemma polygon_ids_app h o : polygon_ids (h ++ [o]) = polygon_ids h ++ polygon_ids [o].
Proof. unfold polygon_ids. by rewrite omap_app. Qed.

Lemma ingested_initial : ingested None initial_state.
Proof. split; try done. Qed.

Lemma ingested_set_cell cur name s : ingested cur s → ingested (Some name) (set_cell name s).
Proof.
  intros [Hch Hcells Hcur Hids Hout]. split; simpl.
  - intros a children c [Ha|[_ Ha]]%lookup_app_Some Hc.
    + destruct (Hch a children c Ha Hc) as [Hp|[Hle Hcont]].
      * left. by apply is_polygon_app.
      * right. split; [done|]. by apply is_container_app.
    + destruct (a - length (heap s))%nat; [|done].
      injection Ha as <-. by apply elem_of_nil in Hc.
  - intros n a [[-> <-]|[_ Hn]]%lookup_insert_Some.
    + exists []. by rewrite lookup_app_r, Nat.sub_diag.
    + by apply is_container_app, (Hcells n).
  - exists (length (heap s)). split_and!; [done|by rewrite lookup_insert_eq|].
    intros n a [[-> <-]|[Hne Hn]]%lookup_insert_Some; [done|].
    destruct (Hcells n a Hn) as [cs Ha%lookup_lt_Some]. lia.
  - rewrite polygon_ids_app. simpl. by rewrite app_nil_r.
  - done.
Qed.

Lemma ingested_Polygon_init cur points layer s p s1 :
  ingested cur s →
  Polygon_init points layer s = Ok (p, s1) →
  ingested cur s1 ∧ is_polygon (heap s1) p ∧ currentCell s1 = currentCell s.
Proof.
  intros [Hch Hcells Hcur Hids Hout] (scaled&_&->&->)%Polygon_init_inv.
  split_and!; [split; cbn [heap cells currentCell object_id to_write undefined_layers]| |done].
  - intros a children c [Ha|[_ Ha]]%lookup_app_Some Hc.
    + destruct (Hch a children c Ha Hc) as [Hp|[Hle Hcont]].
      * left. by apply is_polygon_app.
      * right. split; [done|]. by apply is_container_app.
    + destruct (a - length (heap s))%nat; done.
  - intros n a Hn. by apply is_container_app, (Hcells n).
  - done.
  - rewrite polygon_ids_app, Hids, seq_S, map_app. done.
  - done.
  - simpl. eexists _, _, _. by rewrite lookup_app_r, Nat.sub_diag.
Qed.

Lemma ingested_add_child cur c s s' :
  ingested cur s →
  is_polygon (heap s) (child_addr c) ∨ (∃ name, cells s !! name = Some (child_addr c)) →
  Container_add (currentCell s) c s = Ok s' →
  ingested cur s' ∧ currentCell s' = currentCell s ∧ cells s' = cells s.
Proof.
  intros [Hch Hcells Hcur Hids Hout] Hc (a&cs&Hself&Ha&->)%Container_add_inv.
  split_and!; [split; simpl|done|done].
  - intros b children d Hb Hd.
    assert (is_polygon (heap s) (child_addr d)
            ∨ ((child_addr d ≤ b)%nat ∧ is_container (heap s) (child_addr d))) as Hold.
    { destruct (decide (a = b)) as [<-|Hne].
      - rewrite list_lookup_insert_eq in Hb by (by eapply lookup_lt_Some).
        injection Hb as <-. apply elem_of_app in Hd as [Hd|Hd%list_elem_of_singleton].
        + by apply (Hch a cs).
        + subst d. destruct Hc as [Hp|[n Hn]]; [by left|right].
          split; [|by apply (Hcells n)].
          destruct cur as [n0|]; [|destruct Hcur; congruence].
          destruct Hcur as (a0&Ha0&_&Hle). rewrite Hself in Ha0. injection Ha0 as <-.
          by apply (Hle n).
      - rewrite list_lookup_insert_ne in Hb by done. by apply (Hch b children). }
    destruct Hold as [Hp|[Hle Hcont]].
    + left. by eapply is_polygon_insert.
    + right. split; [done|]. by apply is_container_insert.
  - intros n b Hn. by apply is_container_insert, (Hcells n).
  - done.
  - by rewrite (polygon_ids_insert _ _ cs).
  - done.
Qed.

(** Every record keeps the state as ingestion has it. *)
Lemma ingested_record cur r s s' :
  ingested cur s → ingest_record r s = Ok s' → ingested (current_after cur r) s'.
Proof.
  intros Hs.
  assert (∀ points layer, add_polygon points layer s = Ok s' → ingested cur s') as Hadd.
  { intros points layer. unfold add_polygon.
    destruct (Polygon_init points layer s) as [[p s1]|] eqn:E; simpl; [|done].
    destruct (ingested_Polygon_init _ _ _ _ _ _ Hs E) as (Hs1&Hp&_).
    intros Hc. refine (proj1 (ingested_add_child cur _ s1 s' Hs1 _ Hc)). by left. }
  destruct r as [n|n x y angle mirror| |layer x1 y1 x2 y2|layer points|]; simpl.
  - intros [= <-]. by apply (ingested_set_cell cur).
  - destruct (int_truediv x 10), (int_truediv y 10); try done.
    destruct (cells s !! n) as [c|] eqn:Hn; [|done].
    intros Hc. refine (proj1 (ingested_add_child cur _ s s' Hs _ Hc)).
    right. by exists n.
  - by intros [= <-].
  - apply Hadd.
  - apply Hadd.
  - by intros [= <-].
Qed.

Lemma ingested_ingest rs :
  ∀ cur s s',
    ingested cur s → ingest rs s = Ok s' → ingested (foldl current_after cur rs) s'.
Proof.
  induction rs as [|r rs IH]; intros cur s s' Hs; cbn [ingest foldl].
  - by intros [= <-].
  - destruct (ingest_record r s) as [s1|] eqn:E; cbn [mbind result_bind]; [|done].
    apply IH. by eapply ingested_record.
Qed.

End Ingested.

(** ** Identifiers of the polygons of an input *)

Section Identifiers.

Lemma NoDup_omap_lookup {A B} (f : A → option B) (l : list A) a b x y i :
  NoDup (omap f l) →
  l !! a = Some x → l !! b = Some y → f x = Some i → f y = Some i → a = b.
Proof.
  revert a b. induction l as [|z l IH]; intros a b Hnd Ha Hb Hx Hy; [done|].
  assert (∀ c w, l !! c = Some w → f w = Some i → i ∈ omap f l) as Hin.
  { intros c w Hc Hw. apply list_elem_of_omap. exists w. split; [|done].
    by eapply list_elem_of_lookup_2. }
  simpl in Hnd. destruct a as [|a], b as [|b]; simpl in *.
  - done.
  - injection Ha as ->. rewrite Hx in Hnd. apply NoDup_cons in Hnd as [Hni _].
    destruct Hni. by eapply Hin.
  - injection Hb as ->. rewrite Hy in Hnd. apply NoDup_cons in Hnd as [Hni _].
    destruct Hni. by eapply Hin.
  - f_equal. apply IH; try done.
    destruct (f z); [by apply NoDup_cons in Hnd as [_ ?]|done].
Qed.

Lemma path_ids_NoDup n :
  NoDup (map (λ k : nat, "path" +:+ pretty k) (seq 0 n)).
Proof.
  assert (Inj (=) (=) (λ k : nat, "path" +:+ pretty k)) as Hinj.
  { intros j k H. apply (inj (String.app "path")) in H. by apply (inj pretty) in H. }
  apply (NoDup_fmap_2 _), NoDup_seq.
Qed.

(** X1. Two polygon objects of an ingested input never share an id, and the
    counter [object_id] is the number of polygons created. *)
Theorem ingested_polygon_ids_unique rs s :
  ingest rs initial_state = Ok s →
  (∀ a b points_a layer_a points_b layer_b id,
     heap s !! a = Some (Polygon points_a layer_a id) →
     heap s !! b = Some (Polygon points_b layer_b id) →
     a = b) ∧
  length (polygon_ids (heap s)) = object_id s.
Proof.
  intros Hs. pose proof (ingested_ingest _ _ _ _ ingested_initial Hs) as [_ _ _ Hids _].
  split.
  - intros a b pa la pb lb id Ha Hb.
    eapply (NoDup_omap_lookup
              (λ o, match o with Polygon _ _ i => Some i | Container _ => None end)
              (heap s) a b _ _ id); [|exact Ha|exact Hb|done|done].
    fold (polygon_ids (heap s)). rewrite Hids. apply path_ids_NoDup.
  - by rewrite Hids, length_map, length_seq.
Qed.

End Identifiers.

Lemma ingested_polygon_ids_unique_witness :
  ∃ s, ingest shared_cell_input initial_state = Ok s ∧
       length (polygon_ids (heap s)) = object_id s.
Proof.
  eassert (ingest shared_cell_input initial_state = Ok _) as E
    by (vm_compute; reflexivity).
  eexists. split; [exact E|].
  apply (ingested_polygon_ids_unique shared_cell_input _ E).
Defined.


(** ** Which resolutions return *)

Section Returning.

Lemma within_depth_mono h depth :
  ∀ depth' a, (depth ≤ depth')%nat →
    within_depth depth h a = true → within_depth depth' h a = true.
Proof.
  induction depth as [|depth IH]; intros [|depth'] a Hle; simpl; try done; [lia|].
  destruct (h !! a) as [[children|? ? ?]|]; [|done|done].
  rewrite !forallb_forall. intros Hch c Hc. apply IH; [lia|by apply Hch].
Qed.

(** Every child being an object of the heap, the only exception a
    resolution can meet is the recursion limit. *)
Lemma emitted_closed h depth :
  (∀ a children c,
     h !! a = Some (Container children) → c ∈ children → is_Some (h !! child_addr c)) →
  ∀ a x y angle mirror,
    is_Some (h !! a) →
    (∃ recs, emitted depth h a x y angle mirror = Ok recs)
    ∨ emitted depth h a x y angle mirror = Raise RecursionError.
Proof.
  intros Hclosed.
  induction depth as [|depth IH]; intros a x y angle mirror [o Ha]; simpl; [by right|].
  rewrite Ha. destruct o as [children|points layer id]; [|eauto].
  pose proof (Hclosed a children) as Hch. specialize (Hch) with (1 := Ha). clear Ha.
  induction children as [|[[[[c0 c1] c2] c3] c4] rest IHc]; simpl; [eauto|].
  destruct (rot_mirror_and_offset c1 c2 angle mirror x y) as [c_x c_y].
  destruct (IH c0 c_x c_y (py_mod360 (py_add c3 angle)) (xorb c4 mirror))
    as [[recs1 ->]| ->]; [apply (Hch (c0, c1, c2, c3, c4)); left| |by right].
  destruct IHc as [[recs2 ->]| ->]; [intros c Hc; apply Hch; by right| |by right].
  simpl. eauto.
Qed.

(** A container placed in itself is beyond every depth. *)
Lemma self_child_beyond_depth h a children c :
  h !! a = Some (Container children) → c ∈ children → child_addr c = a →
  ∀ depth, within_depth depth h a = false.
Proof.
  intros Ha Hc Hself. induction depth as [|depth IH]; simpl; [done|].
  rewrite Ha. apply not_true_is_false. rewrite forallb_forall. intros Hall.
  specialize (Hall c). rewrite list_elem_of_In in Hc. specialize (Hall Hc).
  unfold child_addr in Hself. rewrite Hself in Hall. congruence.
Qed.

(** Without such placements the depth of an object is bounded by its
    address. *)
Lemma acyclic_within_depth h :
  acyclic h →
  (∀ a children c,
     h !! a = Some (Container children) → c ∈ children → is_Some (h !! child_addr c)) →
  ∀ a, is_Some (h !! a) → within_depth (S (S a)) h a = true.
Proof.
  intros Hacyc Hclosed a. induction (lt_wf a) as [a _ IH]. intros [o Ha].
  cbn [within_depth]. unfold addr in *. rewrite Ha. destruct o as [children|? ? ?]; [|done].
  apply forallb_forall. intros c Hc%list_elem_of_In.
  change (within_depth (S a) h (child_addr c) = true).
  destruct (Hacyc a children c Ha Hc) as [(p&l&i&Hp)|Hlt].
  - cbn [within_depth]. unfold addr in *. by rewrite Hp.
  - apply (within_depth_mono h (S (S (child_addr c)))); [lia|].
    apply IH; [done|]. by apply (Hclosed a children).
Qed.

End Returning.

(** ** Runs of the main code *)

Section Runs.

Lemma ingested_closed cur s :
  ingested cur s →
  ∀ a children c,
    heap s !! a = Some (Container children) → c ∈ children →
    is_Some (heap s !! child_addr c).
Proof.
  intros [Hch _ _ _ _] a children c Ha Hc.
  destruct (Hch a children c Ha Hc) as [(?&?&?&->)|[_ [? ->]]]; eauto.
Qed.

Lemma select_root_container cur argv3 s root :
  ingested cur s → select_root argv3 s = Ok root → is_container (heap s) root.
Proof.
  intros [_ Hcells Hcur _ _]. unfold select_root. destruct argv3 as [name|].
  - destruct (cells s !! name) as [a|] eqn:Hn; [|done].
    intros [= <-]. by apply (Hcells name).
  - destruct (currentCell s) as [a|] eqn:Ha; [|done]. intros [= <-].
    destruct cur as [name|]; [|destruct Hcur; congruence].
    destruct Hcur as (a'&Ha'&Hn&_). apply (Hcells name). congruence.
Qed.

(** The name of the cell being defined is the last name defined. *)
Lemma current_after_last rs :
  ∀ cur, foldl current_after cur rs
         = match last (cell_names rs) with Some name => Some name | None => cur end.
Proof.
  induction rs as [|r rs IH]; intros cur; [done|].
  cbn [foldl]. rewrite IH, (cell_names_cons r rs).
  destruct r; simpl; try done.
  destruct (cell_names rs) as [|n l]; [done|].
  rewrite last_cons_cons. destruct (last (n :: l)) eqn:E; [done|].
  by apply last_None in E.
Qed.

Lemma acyclic_set_cell name s : acyclic (heap s) → acyclic (heap (set_cell name s)).
Proof.
  intros Hacyc a children c [Ha|[_ Ha]]%lookup_app_Some Hc.
  - destruct (Hacyc a children c Ha Hc) as [Hp|Hlt]; [left|by right].
    by apply is_polygon_app.
  - destruct (a - length (heap s))%nat; [|done].
    injection Ha as <-. by apply elem_of_nil in Hc.
Qed.

Lemma acyclic_Polygon_init points layer s p s1 :
  acyclic (heap s) → Polygon_init points layer s = Ok (p, s1) → acyclic (heap s1).
Proof.
  intros Hacyc (scaled&_&->&->)%Polygon_init_inv a children c.
  cbn [heap]. intros [Ha|[_ Ha]]%lookup_app_Some Hc.
  - destruct (Hacyc a children c Ha Hc) as [Hp|Hlt]; [left|by right].
    by apply is_polygon_app.
  - destruct (a - length (heap s))%nat; done.
Qed.

Lemma acyclic_add_child self c s s' :
  acyclic (heap s) →
  is_polygon (heap s) (child_addr c) ∨ (∀ a, self = Some a → (child_addr c < a)%nat) →
  Container_add self c s = Ok s' → acyclic (heap s').
Proof.
  intros Hacyc Hc (a&cs&->&Ha&->)%Container_add_inv b children d. cbn [heap].
  intros Hb Hd.
  assert (is_polygon (heap s) (child_addr d) ∨ (child_addr d < b)%nat) as [Hp|Hlt].
  { destruct (decide (a = b)) as [<-|Hne].
    - rewrite list_lookup_insert_eq in Hb by (by eapply lookup_lt_Some).
      injection Hb as <-. apply elem_of_app in Hd as [Hd|Hd%list_elem_of_singleton].
      + by apply (Hacyc a cs).
      + subst d. destruct Hc as [Hp|Hlt]; [by left|right; by apply Hlt].
    - rewrite list_lookup_insert_ne in Hb by done. by apply (Hacyc b children). }
  - left. by eapply is_polygon_insert.
  - by right.
Qed.

Lemma acyclic_record cur r s s' :
  ingested cur s → acyclic (heap s) → self_placed cur [r] = false →
  ingest_record r s = Ok s' → acyclic (heap s').
Proof.
  intros Hs Hacyc Hself.
  assert (∀ points layer, add_polygon points layer s = Ok s' → acyclic (heap s')) as Hadd.
  { intros points layer. unfold add_polygon.
    destruct (Polygon_init points layer s) as [[p s1]|] eqn:E; simpl; [|done].
    destruct (ingested_Polygon_init _ _ _ _ _ _ Hs E) as (_&Hp&_).
    apply acyclic_add_child; [by eapply acyclic_Polygon_init|by left]. }
  destruct r as [n|n x y angle mirror| |layer x1 y1 x2 y2|layer points|]; simpl.
  - intros [= <-]. by apply acyclic_set_cell.
  - destruct (int_truediv x 10), (int_truediv y 10); try done.
    destruct (cells s !! n) as [c|] eqn:Hn; [|done].
    apply acyclic_add_child; [done|]. right. intros a Ha.
    unfold child_addr. cbn [fst]. unfold addr in *.
    simpl in Hself. rewrite orb_false_r in Hself. apply bool_decide_eq_false in Hself.
    destruct Hs as [_ _ Hcur _ _].
    destruct cur as [n0|]; [|destruct Hcur; congruence].
    destruct Hcur as (a0&Ha0&_&Hle). rewrite Ha in Ha0. injection Ha0 as <-.
    destruct (Hle n c Hn) as [Hca Heq].
    destruct (decide (c = a)) as [->|]; [|lia]. destruct Hself. by rewrite Heq.
  - by intros [= <-].
  - apply Hadd.
  - apply Hadd.
  - by intros [= <-].
Qed.

Lemma acyclic_ingest rs :
  ∀ cur s s',
    ingested cur s → acyclic (heap s) → self_placed cur rs = false →
    ingest rs s = Ok s' → acyclic (heap s').
Proof.
  induction rs as [|r rs IH]; intros cur s s' Hs Hacyc Hself; cbn [ingest].
  - by intros [= <-].
  - destruct (ingest_record r s) as [s1|] eqn:E; cbn [mbind result_bind]; [|done].
    cbn [self_placed] in Hself. apply orb_false_elim in Hself as [Hr Hrest].
    apply (IH (current_after cur r)); [by eapply ingested_record| |done].
    eapply acyclic_record; [exact Hs|exact Hacyc| |exact E].
    cbn [self_placed]. by rewrite Hr.
Qed.

Lemma has_child_record r s s' (a : addr) c :
  (∃ children, heap s !! a = Some (Container children) ∧ c ∈ children) →
  ingest_record r s = Ok s' →
  ∃ children, heap s' !! a = Some (Container children) ∧ c ∈ children.
Proof.
  intros (cs&Ha&Hc).
  assert (∀ self d t t',
            (∃ children, heap t !! a = Some (Container children) ∧ c ∈ children) →
            Container_add self d t = Ok t' →
            ∃ children, heap t' !! a = Some (Container children) ∧ c ∈ children) as Hadd.
  { intros self d t t' (cs'&Ha'&Hc') (b&cs''&_&Hb&->)%Container_add_inv. cbn [heap].
    destruct (decide (b = a)) as [->|Hne].
    - exists (cs'' ++ [d]). rewrite list_lookup_insert_eq by (by eapply lookup_lt_Some).
      split; [done|]. apply elem_of_app. left. unfold addr in *. congruence.
    - exists cs'. by rewrite list_lookup_insert_ne. }
  assert (∀ points layer, add_polygon points layer s = Ok s' →
            ∃ children, heap s' !! a = Some (Container children) ∧ c ∈ children) as Hpoly.
  { intros points layer. unfold add_polygon.
    destruct (Polygon_init points layer s) as [[p s1]|] eqn:E; simpl; [|done].
    apply Polygon_init_inv in E as (scaled&_&->&->). apply Hadd. cbn [heap].
    exists cs. split; [by apply lookup_app_l_Some|done]. }
  destruct r as [n|n x y angle mirror| |layer x1 y1 x2 y2|layer points|]; simpl.
  - intros [= <-]. exists cs. simpl. split; [by apply lookup_app_l_Some|done].
  - destruct (int_truediv x 10), (int_truediv y 10); try done.
    destruct (cells s !! n); [|done]. apply Hadd. eauto.
  - intros [= <-]. eauto.
  - apply Hpoly.
  - apply Hpoly.
  - intros [= <-]. eauto.
Qed.

Lemma currentCell_record r s s' :
  cell_names [r] = [] → ingest_record r s = Ok s' → currentCell s' = currentCell s.
Proof.
  assert (∀ self d t t', Container_add self d t = Ok t' → currentCell t' = currentCell t)
    as Hadd by (by intros self d t t' (b&cs&_&_&->)%Container_add_inv).
  assert (∀ points layer, add_polygon points layer s = Ok s' →
            currentCell s' = currentCell s) as Hpoly.
  { intros points layer. unfold add_polygon.
    destruct (Polygon_init points layer s) as [[p s1]|] eqn:E; simpl; [|done].
    apply Polygon_init_inv in E as (scaled&_&->&->). intros ->%Hadd. done. }
  destruct r as [n|n x y angle mirror| |layer x1 y1 x2 y2|layer points|]; simpl.
  - done.
  - intros _. destruct (int_truediv x 10), (int_truediv y 10); try done.
    destruct (cells s !! n); [|done]. apply Hadd.
  - by intros _ [= <-].
  - intros _. apply Hpoly.
  - intros _. apply Hpoly.
  - by intros _ [= <-].
Qed.

Lemma after_cell_definition rs :
  ∀ s s' (a : addr) c,
    cell_names rs = [] →
    (∃ children, heap s !! a = Some (Container children) ∧ c ∈ children) →
    ingest rs s = Ok s' →
    currentCell s' = currentCell s ∧
    ∃ children, heap s' !! a = Some (Container children) ∧ c ∈ children.
Proof.
  induction rs as [|r rs IH]; intros s s' a c Hnames Hc; cbn [ingest].
  - intros [= <-]. eauto.
  - destruct (ingest_record r s) as [s1|] eqn:E; cbn [mbind result_bind]; [|done].
    rewrite (cell_names_cons r rs) in Hnames. apply app_eq_nil in Hnames as [Hr Hrs].
    intros Hrest.
    destruct (IH s1 s' a c Hrs (has_child_record _ _ _ _ _ Hc E) Hrest) as [Hcur Hch].
    split; [|done]. rewrite Hcur. by apply (currentCell_record r).
Qed.

Variable repr_float : float → string.

Lemma main_resolve_input limit rs argv3 :
  main repr_float limit rs argv3
  = match resolve_input limit rs argv3 with
    | Raise e => Run (make_svg_header 100 100) (Raise e)
    | Ok s' =>
        Run (make_svg_header 100 100 ++ snd (dump_to_write_to_file repr_float s')
             ++ make_svg_footer)
          (Ok (fst (dump_to_write_to_file repr_float s')))
    end.
Proof.
  unfold main, resolve_input.
  destruct (ingest rs initial_state) as [s|]; simpl; [|done].
  destruct (select_root argv3 s) as [root|]; simpl; [|done].
  by destruct (print_me limit root (PInt 0) (PInt 0) (PInt 0) false s).
Qed.

(** X2. Once the input is ingested and the root chosen, the only exception that
    can still end the run is [RecursionError]: no child tuple refers to a
    missing object, no lookup is left to fail. *)
Theorem run_after_ingestion_raises_only_RecursionError limit rs argv3 s root e :
  ingest rs initial_state = Ok s →
  select_root argv3 s = Ok root →
  outcome (main repr_float limit rs argv3) = Raise e →
  e = RecursionError.
Proof.
  intros Hs Hroot. rewrite main_resolve_input. unfold resolve_input.
  rewrite Hs. simpl. rewrite Hroot. simpl. rewrite print_me_emitted.
  pose proof (ingested_ingest _ _ _ _ ingested_initial Hs) as Hing.
  destruct (select_root_container _ _ _ _ Hing Hroot) as [cs Hcs].
  destruct (emitted_closed (heap s) limit (ingested_closed _ _ Hing) root
              (PInt 0) (PInt 0) (PInt 0) false) as [[recs ->]| ->]; [eauto|done|].
  simpl. by intros [= <-].
Qed.

(** X3. For an input read to its end in which no [Cell Instance] names the
    cell it stands in, and a root that exists, there is a depth from which
    every run returns without exception: a cell only contains objects
    created before it, so the nesting of [print_me] is bounded. *)
Theorem run_without_self_placement_returns rs argv3 s root :
  self_placed None rs = false →
  ingest rs initial_state = Ok s →
  select_root argv3 s = Ok root →
  ∃ limit, ∀ limit', (limit ≤ limit')%nat →
    ∃ s', outcome (main repr_float limit' rs argv3) = Ok s'.
Proof.
  intros Hself Hs Hroot. exists (S (length (heap s))). intros limit Hlimit.
  rewrite main_resolve_input. unfold resolve_input.
  rewrite Hs. simpl. rewrite Hroot. simpl.
  pose proof (ingested_ingest _ _ _ _ ingested_initial Hs) as Hing.
  assert (acyclic (heap s)) as Hacyc.
  { eapply (acyclic_ingest rs None initial_state);
      [apply ingested_initial| |done|done].
    intros a ? ? Ha. done. }
  destruct (select_root_container _ _ _ _ Hing Hroot) as [cs Hcs].
  assert (within_depth limit (heap s) root = true) as Hdepth.
  { apply (within_depth_mono _ (S (S root))).
    - apply lookup_lt_Some in Hcs. lia.
    - apply acyclic_within_depth; [done|by eapply ingested_closed|eauto]. }
  destruct (print_me_total _ _ (PInt 0) (PInt 0) (PInt 0) false _ Hdepth)
    as (recs&_&->).
  eauto.
Qed.

(** X4. When the input is read to its end without exception, and the cell
    defined last holds a [Cell Instance] record that names this cell, the
    run without a cell name ends with [RecursionError] at every depth: the
    header is written, no path is. *)
Theorem self_placed_root_exceeds_every_limit limit pre name x y angle mirror post s :
  last (cell_names pre) = Some name →
  cell_names post = [] →
  ingest (pre ++ CellInstance name x y angle mirror :: post) initial_state = Ok s →
  main repr_float limit (pre ++ CellInstance name x y angle mirror :: post) None
  = Run (make_svg_header 100 100) (Raise RecursionError).
Proof.
  intros Hlast Hpost Hs.
  pose proof (ingested_ingest _ _ _ _ ingested_initial Hs) as Hing.
  rewrite main_resolve_input. unfold resolve_input. rewrite Hs. simpl.
  rewrite ingest_app in Hs.
  destruct (ingest pre initial_state) as [s0|] eqn:E0; simpl in Hs; [|done].
  pose proof (ingested_ingest _ _ _ _ ingested_initial E0) as [_ _ Hcur _ _].
  rewrite current_after_last, Hlast in Hcur. destruct Hcur as (a&Ha&Hn&_).
  destruct (int_truediv x 10) as [x'|], (int_truediv y 10) as [y'|];
    simpl in Hs; try done.
  rewrite Hn, Ha in Hs.
  destruct (Container_add (Some a) (a, PFloat x', PFloat y', PFloat angle, mirror) s0)
    as [s1|] eqn:E1; simpl in Hs; [|done].
  pose proof E1 as (b&cs&[= <-]&Hb&Hs1)%Container_add_inv.
  destruct (after_cell_definition post s1 s a
              (a, PFloat x', PFloat y', PFloat angle, mirror) Hpost) as [Hcur' Hch];
    [|done|].
  { subst s1. cbn [heap]. eexists.
    rewrite list_lookup_insert_eq by (by eapply lookup_lt_Some).
    split; [done|]. apply elem_of_app. right. by apply list_elem_of_singleton. }
  destruct Hch as (children&Hchildren&Hin).
  assert (currentCell s = Some a) as Hroot by (rewrite Hcur'; by subst s1).
  unfold select_root. rewrite Hroot. simpl. rewrite print_me_emitted.
  destruct (emitted_closed (heap s) limit (ingested_closed _ _ Hing) a
              (PInt 0) (PInt 0) (PInt 0) false) as [[recs Hrecs]| ->]; [eauto| |done].
  apply emitted_within_depth in Hrecs.
  by rewrite (self_child_beyond_depth _ _ _ _ Hchildren Hin eq_refl) in Hrecs.
Qed.

(** X5. Leaving out the cell name is naming the cell defined last. *)
Theorem default_root_is_last_defined_cell limit rs :
  main repr_float limit rs None = main repr_float limit rs (last (cell_names rs)).
Proof.
  unfold main. destruct (ingest rs initial_state) as [s|] eqn:Hs; [|done].
  pose proof (ingested_ingest _ _ _ _ ingested_initial Hs) as [_ _ Hcur _ _].
  rewrite current_after_last in Hcur.
  destruct (last (cell_names rs)) as [name|]; [|done].
  destruct Hcur as (a&Ha&Hn&_). unfold select_root. by rewrite Ha, Hn.
Qed.

(** X6. An input whose lines can all be read (every field is there, every
    point loop ends normally: this is what a list of records stands for)
    and that has no [Cell Name] record gives no drawing: the run ends with
    an exception whatever the root asked for, the file holding the header
    only. *)
Theorem run_without_cell_raises limit rs argv3 :
  cell_names rs = [] →
  ∃ e, main repr_float limit rs argv3 = Run (make_svg_header 100 100) (Raise e).
Proof.
  intros Hnames. unfold main.
  destruct (ingest rs initial_state) as [s|] eqn:Hs; [|eauto].
  pose proof (ingested_ingest _ _ _ _ ingested_initial Hs) as [_ _ Hcur _ _].
  rewrite current_after_last, Hnames in Hcur. simpl in Hcur. destruct Hcur as [Hc He].
  unfold select_root. rewrite Hc, He. destruct argv3 as [name|]; simpl; [|eauto].
  rewrite lookup_empty. eauto.
Qed.

(** X7. A run that ends without exception has written the header, one text per
    record of the root's resolution in layer order, records of one layer in
    the order of their emission, and the footer; every record written is
    the path of a primitive reached from the root. *)
Theorem run_writes_the_root_resolution limit rs argv3 out s' :
  main repr_float limit rs argv3 = Run out (Ok s') →
  ∃ s root recs,
    ingest rs initial_state = Ok s ∧
    select_root argv3 s = Ok root ∧
    emitted limit (heap s) root (PInt 0) (PInt 0) (PInt 0) false = Ok recs ∧
    to_write s' = sorted_by_layer recs ∧
    (∀ k, filter (λ r, fst r = k) (to_write s') = filter (λ r, fst r = k) recs) ∧
    out = make_svg_header 100 100
          ++ map (λ r, element_text repr_float (snd r) +:+ nl) (to_write s')
          ++ make_svg_footer ∧
    undefined_layers s' = unknown_layers recs ∧
    heap s' = heap s ∧
    ∀ r, r ∈ to_write s' →
      ∃ a t points layer id,
        rtc (descends (heap s)) (root, (PInt 0, PInt 0, PInt 0, false)) (a, t) ∧
        heap s !! a = Some (Polygon points layer id) ∧
        r = record_of points layer id t.
Proof.
  unfold main. destruct (ingest rs initial_state) as [s|] eqn:Hs; [|done].
  destruct (select_root argv3 s) as [root|] eqn:Hroot; [|done].
  destruct (print_me limit root (PInt 0) (PInt 0) (PInt 0) false s) as [s1|] eqn:Hp;
    [|done].
  apply print_me_inv in Hp as (recs&Hrecs&->).
  pose proof (ingested_ingest _ _ _ _ ingested_initial Hs) as [_ _ _ _ [Hw Hu]].
  unfold dump_to_write_to_file.
  cbn [after_emitting to_write undefined_layers heap object_id cells currentCell].
  rewrite Hw, Hu.
  intros [= <- <-]. exists s, root, recs. cbn [to_write undefined_layers heap].
  split_and!; try done.
  - intros k. apply sorted_by_layer_stable.
  - apply (right_id_L ∅ (∪)).
  - intros r Hr.
    apply (emitted_sound _ _ root (PInt 0, PInt 0, PInt 0, false) _ Hrecs).
    by rewrite <- (sorted_by_layer_perm recs).
Qed.

End Runs.

Lemma run_after_ingestion_raises_only_RecursionError_witness :
  ∃ e, outcome (main (λ _, "?") 5 self_placing_input None) = Raise e ∧
       e = RecursionError.
Proof.
  eassert (outcome (main (λ _, "?") 5 self_placing_input None) = Raise _) as E
    by (vm_compute; reflexivity).
  eexists. split; [exact E|].
  eapply (run_after_ingestion_raises_only_RecursionError
            (λ _, "?") 5%nat self_placing_input None);
    [vm_compute; reflexivity|vm_compute; reflexivity|exact E].
Defined.

Lemma run_without_self_placement_returns_witness :
  self_placed None shared_cell_input = false ∧
  ∃ limit, ∀ limit', (limit ≤ limit')%nat →
    ∃ s', outcome (main (λ _, "?") limit' shared_cell_input None) = Ok s'.
Proof.
  split; [reflexivity|].
  eapply (run_without_self_placement_returns (λ _, "?") shared_cell_input None);
    [reflexivity|vm_compute; reflexivity|vm_compute; reflexivity].
Defined.

Lemma self_placed_root_exceeds_every_limit_witness :
  main (λ _, "?") 1000
    ([CellName "A"; Rectangle 31 0 0 10 20]
       ++ CellInstance "A" 0 0 0 false :: [EndCellDefinition]) None
  = Run (make_svg_header 100 100) (Raise RecursionError).
Proof.
  eapply (self_placed_root_exceeds_every_limit (λ _, "?") 1000%nat
            [CellName "A"; Rectangle 31 0 0 10 20] "A" 0 0 0 false [EndCellDefinition]);
    [reflexivity|reflexivity|vm_compute; reflexivity].
Defined.

Lemma run_without_cell_raises_witness :
  ∃ e, main (λ _, "?") 1000 [OtherLine; EndCellDefinition] (Some "TOP")
       = Run (make_svg_header 100 100) (Raise e).
Proof.
  apply (run_without_cell_raises (λ _, "?") 1000%nat [OtherLine; EndCellDefinition]
           (Some "TOP")).
  reflexivity.
Defined.

Lemma run_writes_the_root_resolution_witness :
  ∃ out s' s,
    main (λ _, "?") 1000 nested_input None = Run out (Ok s') ∧
    ingest nested_input initial_state = Ok s ∧
    heap s' = heap s ∧
    length (to_write s') = 1%nat.
Proof.
  eassert (main (λ _, "?") 1000 nested_input None = Run _ (Ok _)) as E
    by (vm_compute; reflexivity).
  destruct (run_writes_the_root_resolution (λ _, "?") 1000%nat nested_input None _ _ E)
    as (s&root&recs&Hs&_&_&_&_&_&_&Hheap&_).
  eexists _, _, s. split_and!; [exact E|exact Hs|exact Hheap|reflexivity].
Defined.


(** ** The dump, once more *)

Section DumpAgain.

Lemma sorted_by_layer_fixed {A} (l : list (Z * A)) :
  Sorted (λ a b, fst a <= fst b) l → sorted_by_layer l = l.
Proof.
  induction 1 as [|x l Hl IH Hx]; simpl; [done|]. rewrite IH.
  destruct Hx as [|y l' Hxy]; simpl; [done|].
  destruct (Z.ltb_spec (fst y) (fst x)); [lia|done].
Qed.

Variable repr_float : float → string.

(** X8. The dump writes one string per record of [to_write], and calling it
    again writes the same strings again: [to_write], replaced by its sorted
    copy, is not reordered a second time. *)
Theorem dump_again_writes_the_same s :
  length (snd (dump_to_write_to_file repr_float s)) = length (to_write s) ∧
  dump_to_write_to_file repr_float (fst (dump_to_write_to_file repr_float s))
  = dump_to_write_to_file repr_float s.
Proof.
  unfold dump_to_write_to_file. cbn [fst snd to_write heap undefined_layers
                                       object_id cells currentCell].
  split.
  - rewrite length_map. apply Permutation_length, sorted_by_layer_perm.
  - by rewrite (sorted_by_layer_fixed _ (sorted_by_layer_sorted (to_write s))).
Qed.

End DumpAgain.

(** ** Rectangles *)

Section Rectangles.

(** X9. A [Rectangle] record creates one polygon of five points, the two corners
    and the two mixed corners in the order (x1,y1), (x1,y2), (x2,y2),
    (x2,y1), with the first corner once more at the end, each coordinate
    divided by 10; it is placed untransformed at the end of the current
    cell, which must exist. Every path emitted for it repeats its first
    point as its last. *)
Theorem rectangle_is_a_closed_polygon layer x1 y1 x2 y2 s s' :
  ingest_record (Rectangle layer x1 y1 x2 y2) s = Ok s' →
  ∃ cur children X1 Y1 X2 Y2,
    currentCell s = Some cur ∧
    heap s !! cur = Some (Container children) ∧
    int_truediv x1 10 = Some X1 ∧ int_truediv y1 10 = Some Y1 ∧
    int_truediv x2 10 = Some X2 ∧ int_truediv y2 10 = Some Y2 ∧
    heap s'
    = <[cur := Container (children
                          ++ [(length (heap s), PInt 0, PInt 0, PInt 0, false)])]>
        (heap s
         ++ [Polygon [(PFloat X1, PFloat Y1); (PFloat X1, PFloat Y2);
                      (PFloat X2, PFloat Y2); (PFloat X2, PFloat Y1);
                      (PFloat X1, PFloat Y1)]
               layer ("path" +:+ pretty (object_id s))]) ∧
    object_id s' = S (object_id s) ∧
    ∀ x y angle mirror,
      map (emit_point x y angle mirror)
        [(PFloat X1, PFloat Y1); (PFloat X1, PFloat Y2);
         (PFloat X2, PFloat Y2); (PFloat X2, PFloat Y1); (PFloat X1, PFloat Y1)]
      = closed_by_repeat
          (map (emit_point x y angle mirror)
             [(PFloat X1, PFloat Y1); (PFloat X1, PFloat Y2);
              (PFloat X2, PFloat Y2); (PFloat X2, PFloat Y1)]).
Proof.
  cbn [ingest_record]. unfold add_polygon.
  destruct (Polygon_init _ layer s) as [[p s1]|] eqn:E; simpl; [|done].
  apply Polygon_init_inv in E as (scaled&Hscaled&->&->).
  intros (cur&children&Hcur&Hchildren&->)%Container_add_inv.
  cbn [currentCell heap object_id] in *.
  simpl in Hscaled.
  destruct (int_truediv x1 10) as [X1|]; [|done].
  destruct (int_truediv y1 10) as [Y1|]; [|done].
  destruct (int_truediv y2 10) as [Y2|]; [|done].
  destruct (int_truediv x2 10) as [X2|]; [|done].
  simpl in Hscaled. injection Hscaled as <-.
  exists cur, children, X1, Y1, X2, Y2. split_and!; try done.
  apply lookup_app_Some in Hchildren as [Hc|[_ Hc]]; [done|].
  by destruct (cur - length (heap s))%nat.
Qed.

End Rectangles.

Lemma rectangle_is_a_closed_polygon_witness :
  ∃ s', ingest_record (Rectangle 31 0 0 10 20) (set_cell "A" initial_state) = Ok s' ∧
        object_id s' = 1%nat.
Proof.
  eassert (ingest_record (Rectangle 31 0 0 10 20) (set_cell "A" initial_state) = Ok _)
    as E by (vm_compute; reflexivity).
  destruct (rectangle_is_a_closed_polygon 31 0 0 10 20 _ _ E)
    as (cur&children&X1&Y1&X2&Y2&_&_&_&_&_&_&_&Hid&_).
  eexists. split; [exact E|exact Hid].
Defined.


(** ** The recursion limit *)

Section Limit.

Lemma emitted_children_mono f g children x y angle mirror recs :
  (∀ a x' y' angle' mirror' recs',
     f a x' y' angle' mirror' = Ok recs' → g a x' y' angle' mirror' = Ok recs') →
  emitted_children f children x y angle mirror = Ok recs →
  emitted_children g children x y angle mirror = Ok recs.
Proof.
  intros Hfg. revert recs.
  induction children as [|[[[[c0 c1] c2] c3] c4] rest IH]; intros recs; simpl; [done|].
  destruct (rot_mirror_and_offset c1 c2 angle mirror x y) as [c_x c_y].
  destruct (f c0 c_x c_y _ _) as [recs1|] eqn:E1; simpl; [|done].
  rewrite (Hfg _ _ _ _ _ _ E1). simpl.
  destruct (emitted_children f rest x y angle mirror) as [recs2|]; simpl; [|done].
  by rewrite (IH recs2 eq_refl).
Qed.

Lemma emitted_mono h depth :
  ∀ depth' a x y angle mirror recs,
    (depth ≤ depth')%nat →
    emitted depth h a x y angle mirror = Ok recs →
    emitted depth' h a x y angle mirror = Ok recs.
Proof.
  induction depth as [|depth IH]; intros [|depth'] a x y angle mirror recs Hle;
    simpl; try done; [lia|].
  destruct (h !! a) as [[children|? ? ?]|]; [|done|done].
  apply emitted_children_mono. intros. eapply IH; [|done]. lia.
Qed.

(** X10. A resolution that returns under some recursion limit returns the same
    state under every larger one. *)
Theorem larger_limit_same_resolution depth depth' a x y angle mirror s s' :
  (depth ≤ depth')%nat →
  print_me depth a x y angle mirror s = Ok s' →
  print_me depth' a x y angle mirror s = Ok s'.
Proof.
  intros Hle (recs&E&->)%print_me_inv.
  by rewrite print_me_emitted, (emitted_mono _ _ _ _ _ _ _ _ _ Hle E).
Qed.

End Limit.

Lemma larger_limit_same_resolution_witness :
  ∃ s', print_me 3 2%nat (PInt 0) (PInt 0) (PInt 0) false frame_state = Ok s' ∧
        print_me 1000 2%nat (PInt 0) (PInt 0) (PInt 0) false frame_state = Ok s'.
Proof.
  eassert (print_me 3 2%nat (PInt 0) (PInt 0) (PInt 0) false frame_state = Ok _) as E
    by (vm_compute; reflexivity).
  eexists. split; [exact E|].
  apply (larger_limit_same_resolution 3 1000 _ _ _ _ _ _ _); [lia|exact E].
Defined.


(** ** Right angles all the way down *)

Section RightAngles.

(** X11. Where every placement of the heap has a right angle, every object
    reached from a right angle is printed at a right angle: the sum modulo
    360 never leaves the four cases, and the transform applied is the
    rotation, mirror and offset of that angle. *)
Theorem right_angles_stay_right h :
  (∀ (a : addr) children c0 c1 c2 c3 c4,
     h !! a = Some (Container children) → (c0, c1, c2, c3, c4) ∈ children →
     ∃ r, angle_is c3 r) →
  ∀ v v',
    rtc (descends h) v v' →
    (∃ r, angle_is (snd (fst (snd v))) r) →
    ∃ r',
      angle_is (snd (fst (snd v'))) r' ∧
      ∀ px py,
        rot_mirror_and_offset px py (snd (fst (snd v'))) (snd (snd v'))
          (fst (fst (fst (snd v')))) (snd (fst (fst (snd v'))))
        = spec_compose (px, py) r' (snd (snd v'))
            (fst (fst (fst (snd v'))), snd (fst (fst (snd v')))).
Proof.
  intros Hheap v v' Hrtc. induction Hrtc as [v|v v1 v' Hstep _ IH].
  - intros [r Hr]. exists r. split; [done|]. intros px py.
    destruct v as [a [[[x y] angle] mirror]]. simpl in *.
    apply (compose_steps (px, py) (Placement x y angle mirror) r Hr).
  - intros [r Hr]. apply IH.
    destruct Hstep as [a children c0 c1 c2 c3 c4 x y angle mirror Ha Hc].
    destruct (Hheap a children c0 c1 c2 c3 c4 Ha Hc) as [r3 H3].
    exists (add_angle r3 r). simpl in *. by apply angle_is_sum.
Qed.

End RightAngles.

Lemma right_angles_stay_right_witness :
  ∃ r', angle_is (py_mod360 (py_add (PFloat 90) (PInt 0))) r'.
Proof.
  destruct (right_angles_stay_right frame_heap) with
    (v := (2%nat, (PInt 0, PInt 0, PInt 0, false)))
    (v' := (1%nat,
            (fst (rot_mirror_and_offset (PFloat 10) (PFloat 0) (PInt 0) false
                    (PInt 0) (PInt 0)),
             snd (rot_mirror_and_offset (PFloat 10) (PFloat 0) (PInt 0) false
                    (PInt 0) (PInt 0)),
             py_mod360 (py_add (PFloat 90) (PInt 0)), xorb false false)))
    as (r'&Hr'&_).
  - intros [|[|[|a]]] children c0 c1 c2 c3 c4; simpl; intros [= <-];
      intros [= -> -> -> -> ->]%list_elem_of_singleton;
      [exists Deg0|exists Deg90]; vm_compute; reflexivity.
  - eapply rtc_l; [|apply rtc_refl].
    apply (descends_child frame_heap 2%nat
             [(1%nat, PFloat 10, PFloat 0, PFloat 90, false)]);
      [reflexivity|by apply list_elem_of_singleton].
  - exists Deg0. reflexivity.
  - exists r'. exact Hr'.
Defined.


(** ** Reading the points of a polygon *)

Section ReadPoints.

Lemma take_points_inr k :
  ∀ things points pts,
    take_points k things points = inr pts →
    ∃ cs rest,
      things = map (λ p, Coord (fst p) (snd p)) cs ++ rest ∧
      length cs = k ∧ pts = points ++ cs.
Proof.
  induction k as [|k IH]; intros things points pts; simpl.
  - intros [= <-]. exists [], things. by rewrite app_nil_r.
  - destruct things as [|[x y|e] things]; [done| |done].
    intros (cs&rest&->&<-&->)%IH. exists ((x, y) :: cs), rest.
    by rewrite <- app_assoc.
Qed.

Lemma line_coords_prefix cs rest :
  (length cs ≤ 4)%nat →
  take (length cs) (line_coords (map (λ p, Coord (fst p) (snd p)) cs ++ rest)) = cs ∧
  (length cs = 4%nat →
   line_coords (map (λ p, Coord (fst p) (snd p)) cs ++ rest) = cs).
Proof.
  intros Hlen. unfold line_coords.
  assert (omap (λ t, match t with Coord x y => Some (x, y) | BadToken _ => None end)
            (map (λ p : Z * Z, Coord (fst p) (snd p)) cs) = cs) as Hcs.
  { clear. induction cs as [|[x y] cs IH]; simpl; [done|]. f_equal. exact IH. }
  rewrite firstn_app, length_map, omap_app.
  rewrite (firstn_all2 (n := 4)) by (rewrite length_map; lia). rewrite Hcs.
  split.
  - by rewrite take_app_length.
  - intros ->. simpl. by rewrite app_nil_r.
Qed.

Lemma short_line_count n :
  n < 4 →
  (1 <= n ∧
   (if n =? 3 then 3 else if n =? 2 then 2 else if n =? 1 then 1 else 0) = n) ∨
  (n <= 0 ∧
   (if n =? 3 then 3 else if n =? 2 then 2 else if n =? 1 then 1 else 0) = 0).
Proof. intros Hn. destruct (Z.eqb_spec n 3), (Z.eqb_spec n 2), (Z.eqb_spec n 1); lia. Qed.

(** X12. The loop ends, within one turn per four points and one more, exactly
    when the number of points announced is not negative; a negative number
    keeps it reading for ever, past the end of the file. At the end of the
    file a point still missing raises [IndexError]. *)
Theorem read_points_ends_iff_count_not_negative n lines points :
  (0 <= n → is_Some (read_points (S (Z.to_nat (n / 4))) n lines points)) ∧
  (n < 0 → ∀ turns, read_points turns n lines points = None) ∧
  (1 <= n → ∀ turns, read_points (S turns) n [] points = Some (inl IndexError)).
Proof.
  split_and!.
  - intros Hn. remember (Z.to_nat (n / 4)) as q eqn:Hq.
    revert n lines points Hn Hq.
    induction q as [|q IH]; intros n lines points Hn Hq; cbn [read_points].
    + assert (n < 4) as Hlt.
      { destruct (Z.lt_ge_cases n 4) as [|Hge]; [done|].
        assert (1 <= n / 4) by (apply Z.div_le_lower_bound; lia). lia. }
      destruct (Z.leb_spec 4 n); [lia|].
      set (k := if n =? 3 then 3 else if n =? 2 then 2 else if n =? 1 then 1 else 0).
      assert (n - k = 0) as Hk.
      { destruct (short_line_count n) as [[? Hk]|[? Hk]]; [done| |]; fold k in Hk; lia. }
      destruct (take_points (Z.to_nat k) (hd [] lines) points); [done|].
      by rewrite Hk.
    + assert (4 <= n) as Hge.
      { destruct (Z.lt_ge_cases n 4) as [Hlt|]; [|done].
        rewrite (Z.div_small n 4) in Hq by lia. done. }
      destruct (Z.leb_spec 4 n); [|lia].
      destruct (take_points (Z.to_nat 4) (hd [] lines) points) as [e|pts]; [done|].
      destruct (Z.eqb_spec (n - 4) 0); [done|].
      apply IH; [lia|].
      replace n with ((n - 4) + 1 * 4) in Hq by lia.
      rewrite Z.div_add in Hq by lia. lia.
  - intros Hn turns. revert lines points.
    induction turns as [|turns IH]; intros lines points; cbn [read_points]; [done|].
    destruct (Z.leb_spec 4 n); [lia|].
    destruct (short_line_count n) as [[? _]|[_ ->]]; [lia|lia|].
    simpl. rewrite Z.sub_0_r. destruct (Z.eqb_spec n 0); [lia|]. apply IH.
  - intros Hn turns. cbn [read_points hd].
    destruct (Z.leb_spec 4 n); [done|].
    destruct (short_line_count n) as [[_ ->]|[? _]]; [lia| |lia].
    destruct (Z.to_nat n) eqn:E; [lia|done].
Qed.

(** X13. When the loop returns, the points it has added are the first
    [numPoints] points of the lines, four from each line, in their order,
    and it has read one line per four points, and one line even for no
    point at all. *)
Theorem read_points_result turns :
  ∀ n lines points pts rest,
    read_points turns n lines points = Some (inr (pts, rest)) →
    0 <= n ∧
    pts = points ++ take (Z.to_nat n) (concat (map line_coords lines)) ∧
    length pts = (length points + Z.to_nat n)%nat ∧
    rest = drop (Z.to_nat (Z.max 1 ((n + 3) / 4))) lines.
Proof.
  induction turns as [|turns IH]; intros n lines points pts rest;
    cbn [read_points]; [done|].
  destruct (Z.leb_spec 4 n) as [Hge|Hlt].
  - destruct (take_points (Z.to_nat 4) (hd [] lines) points) as [e|pts1] eqn:E;
      [done|].
    apply take_points_inr in E as (cs&more&Hthings&Hlen&->).
    destruct lines as [|things lines]; [by destruct cs|]. simpl in Hthings. subst things.
    change (Z.to_nat 4) with 4%nat in Hlen.
    destruct (line_coords_prefix cs more) as [_ Hcoords]; [lia|].
    specialize (Hcoords Hlen).
    cbn [tl map concat]. rewrite Hcoords.
    destruct (Z.eqb_spec (n - 4) 0) as [Hn|Hn].
    + intros [= <- <-]. assert (n = 4) as -> by lia.
      split_and!; [lia| | |done].
      * change (Z.to_nat 4) with 4%nat. rewrite <- Hlen.
        by rewrite take_app_length.
      * rewrite length_app. change (Z.to_nat 4) with 4%nat. lia.
    + intros (Hn0&->&Hl&->)%IH.
      assert (Z.to_nat n = (4 + Z.to_nat (n - 4))%nat) as Hsplit by lia.
      split_and!; [lia| | |].
      * rewrite <- app_assoc. f_equal. rewrite Hsplit, <- Hlen.
        by rewrite take_app_add.
      * rewrite Hl, length_app. lia.
      * replace (n + 3) with ((n - 4 + 3) + 1 * 4) by lia.
        rewrite Z.div_add by lia.
        assert (1 <= (n - 4 + 3) / 4) by (apply Z.div_le_lower_bound; lia).
        rewrite !Z.max_r by lia.
        replace (Z.to_nat ((n - 4 + 3) / 4 + 1))
          with (S (Z.to_nat ((n - 4 + 3) / 4))) by lia.
        done.
  - set (k := if n =? 3 then 3 else if n =? 2 then 2 else if n =? 1 then 1 else 0).
    assert ((1 <= n <= 3 ∧ k = n) ∨ (n <= 0 ∧ k = 0)) as Hk.
    { destruct (short_line_count n) as [Hk|Hk]; [done| |]; fold k in Hk; [left|right]; lia. }
    destruct (take_points (Z.to_nat k) (hd [] lines) points) as [e|pts1] eqn:E;
      [done|].
    apply take_points_inr in E as (cs&more&Hthings&Hlen&->).
    destruct Hk as [[Hn ->]|[Hn ->]].
    + rewrite Z.sub_diag. simpl. intros [= <- <-].
      destruct lines as [|things lines]; [destruct cs; simpl in *; [lia|done]|].
      simpl in Hthings. subst things.
      destruct (line_coords_prefix cs more) as [Hcoords _]; [lia|].
      cbn [tl map concat].
      assert ((n + 3) / 4 = 1) as Hdiv.
      { symmetry. apply Z.div_unique with (n - 1); lia. }
      rewrite Hdiv. split_and!; [lia| | |done].
      * f_equal. set (L := line_coords _) in *.
        assert (length cs ≤ length L)%nat as HL.
        { assert (length (take (length cs) L) = length cs) as Htake
            by (by rewrite Hcoords).
          rewrite length_take in Htake. lia. }
        by rewrite <- Hlen, take_app_le.
      * rewrite length_app. lia.
    + rewrite Z.sub_0_r. destruct cs; [|done]. rewrite app_nil_r.
      destruct (Z.eqb_spec n 0) as [->|Hne].
      * intros [= <- <-]. simpl. rewrite app_nil_r.
        split_and!; [done|done|lia|]. by destruct lines.
      * intros (Hn0&_)%IH. lia.
Qed.

End ReadPoints.

Lemma read_points_ends_iff_count_not_negative_witness :
  is_Some (read_points 2 5 five_point_lines []) ∧
  read_points 7 (-1) five_point_lines [] = None.
Proof.
  destruct (read_points_ends_iff_count_not_negative 5 five_point_lines [])
    as (Hends&_&_).
  destruct (read_points_ends_iff_count_not_negative (-1) five_point_lines [])
    as (_&Hnever&_).
  split; [apply Hends; lia|apply Hnever; lia].
Defined.

Lemma read_points_result_witness :
  ∃ pts rest,
    read_points 2 5 five_point_lines [] = Some (inr (pts, rest)) ∧
    length pts = 5%nat ∧ rest = [[]].
Proof.
  eassert (read_points 2 5 five_point_lines [] = Some (inr (_, _))) as E
    by (vm_compute; reflexivity).
  destruct (read_points_result 2 5 five_point_lines [] _ _ E) as (_&_&Hlen&Hrest).
  eexists _, _. split_and!; [exact E|exact Hlen|exact Hrest].
Defined.

